(** * pysnow: the streaming response interpreter and the OAuth token setter

    A shallow embedding of [pysnow/response.py] (class [Response]) and of
    [OAuthClient.set_token] from [pysnow/oauth_client.py], together with the
    two pieces of [ijson] that [Response._parse_response] drives: the
    prefixed event stream of [ijson.parse] and [ijson.common.ObjectBuilder].

    Python generators are modelled as resumable state machines: a frame
    holding the program counter and the locals, and a [next] function that
    runs the body up to the next [yield], the end of the body or an
    exception.  The attributes of [self] that the generators read and write
    ([_raise_on_empty], [count]) live in the [Response] record, which is
    threaded through every [next]. *)

From Stdlib Require Import List String Ascii ZArith Bool Lia PeanoNat.
Import ListNotations.

Open Scope string_scope.
Open Scope Z_scope.
Open Scope list_scope.

(* ================================================================= *)
(** ** JSON documents and Python values *)

#[local] Unset Elimination Schemes.

(** The text of a JSON document, as a tree.  Members of an object are kept
    in document order and may repeat a key.  A number with a fraction or an
    exponent is carried as mantissa and decimal exponent. *)
Inductive json : Type :=
| JNull
| JBool (b : bool)
| JInteger (n : Z)
| JDouble (m e : Z)
| JString (s : string)
| JArray (items : list json)
| JObject (members : list (string * json)).

(** The Python values that appear as records, as error payloads and as
    arguments of [set_token].  A [dict] is an association list in insertion
    order with pairwise distinct keys. *)
Inductive pyval : Type :=
| PNone
| PBool (b : bool)
| PInt (n : Z)
| PDecimal (m e : Z)
| PStr (s : string)
| PList (l : list pyval)
| PDict (d : list (string * pyval)).

#[local] Set Elimination Schemes.

Definition pydict := list (string * pyval).

(** [d[k] = v]: replaces the value of an existing key in place, appends a
    new key otherwise. *)
Fixpoint dict_set (k : string) (v : pyval) (d : pydict) : pydict :=
  match d with
  | [] => [(k, v)]
  | (k', v') :: t =>
      if String.eqb k k' then (k', v) :: t else (k', v') :: dict_set k v t
  end.

(** The Python value a JSON document denotes: objects become dicts filled
    member by member, arrays become lists. *)
Fixpoint loads (j : json) : pyval :=
  match j with
  | JNull => PNone
  | JBool b => PBool b
  | JInteger n => PInt n
  | JDouble m e => PDecimal m e
  | JString s => PStr s
  | JArray items => PList (map loads items)
  | JObject members =>
      PDict (fold_left (fun d kv => dict_set (fst kv) (loads (snd kv)) d)
                       members [])
  end.

(* ================================================================= *)
(** ** ijson.parse: the prefixed event stream *)

(** One event of [ijson]: the event name together with the value that
    travels with it ([None] for the four structural events). *)
Inductive event : Type :=
| start_map
| end_map
| start_array
| end_array
| map_key (k : string)
| null
| boolean (b : bool)
| integer (n : Z)
| double (m e : Z)
| string_ (s : string).

(** The triple [(prefix, event, value)] that [ijson.parse] yields. *)
Abbreviation ParseEvent := (string * event)%type.

(** ['.'.join(path)] *)
Definition join_path (path : list string) : string := String.concat "." path.

(** The events of the value [j] found at [path], in document order.  The
    members of a map are announced by a [map_key] event carrying the prefix
    of the map; the elements of an array live under the name [item]. *)
Fixpoint events_at (path : list string) (j : json) : list ParseEvent :=
  match j with
  | JNull => [(join_path path, null)]
  | JBool b => [(join_path path, boolean b)]
  | JInteger n => [(join_path path, integer n)]
  | JDouble m e => [(join_path path, double m e)]
  | JString s => [(join_path path, string_ s)]
  | JArray items =>
      (join_path path, start_array)
        :: flat_map (events_at (path ++ ["item"])) items
        ++ [(join_path path, end_array)]
  | JObject members =>
      (join_path path, start_map)
        :: flat_map (fun kv => (join_path path, map_key (fst kv))
                                 :: events_at (path ++ [fst kv]) (snd kv))
                    members
        ++ [(join_path path, end_map)]
  end.

(** What the tokenizer does when the events run out: the document was
    complete, or the bytes stopped being JSON and [ijson] raises. *)
Inductive stream_end : Type := end_of_document | malformed.

(** The body of a response as [ijson.parse] delivers it. *)
Record stream : Type := mkStream {
  stream_events : list ParseEvent;
  stream_ending : stream_end
}.

(** The stream of a well-formed document. *)
Definition document (j : json) : stream :=
  mkStream (events_at [] j) end_of_document.

(* ================================================================= *)
(** ** Exceptions and fallible computations *)

(** The exceptions of [pysnow.exceptions] that the two modules raise, the
    [HTTPError] of [requests], the error of [ijson] on malformed input, and
    the built-in exceptions the modelled code can run into.
    [ResponseError] carries the object it is constructed from, which is
    where its message and detail are read from. *)
Inductive exn : Type :=
| ResponseError (error : pyval)
| NoResults (msg : string)
| MultipleResults (msg : string)
| MissingResult (msg : string)
| InvalidUsage (msg : string)
| HTTPError (status : Z)
| JSONError
| StopIteration
| AttributeError
| IndexError
| KeyError
| TypeError
| UnboundLocalError.

Inductive result (A : Type) : Type :=
| Ok (a : A)
| Err (e : exn).
Arguments Ok {A} a.
Arguments Err {A} e.

Definition bind {A B : Type} (c : result A) (f : A -> result B) : result B :=
  match c with
  | Ok a => f a
  | Err e => Err e
  end.

Notation "x <- c ;; k" := (bind c (fun x => k))
  (at level 61, c at next level, right associativity).

(* ================================================================= *)
(** ** ijson.common.ObjectBuilder *)

(** A reference to a container that sits inside [builder.value] is the way
    down to it from the root.  A container is entered through the key it
    was stored under, or as the last element of the list it was appended
    to.  Only the setter on top of [containers] is ever called, so nothing
    is stored next to an open container and every reference on the stack
    stays good. *)
Inductive step : Type :=
| at_key (k : string)
| at_last.

Definition ref : Type := list step.

(** The three closures the builder keeps on its stack. *)
Inductive setter : Type :=
| initial_set
| map_setter (mappable : ref)
| array_append (array : ref).

(** [containers] has its last element ([containers[-1]]) at the head.
    [value] and [key] are attributes that exist only once assigned. *)
Record ObjectBuilder : Type := mkBuilder {
  value : option pyval;
  containers : list setter;
  key : option string
}.

(** [ObjectBuilder()] *)
Definition new_builder : ObjectBuilder := mkBuilder None [initial_set] None.

Definition set_value (b : ObjectBuilder) (v : pyval) : ObjectBuilder :=
  mkBuilder (Some v) (containers b) (key b).

Definition set_containers (b : ObjectBuilder) (cs : list setter)
  : ObjectBuilder :=
  mkBuilder (value b) cs (key b).

Definition set_key (b : ObjectBuilder) (k : string) : ObjectBuilder :=
  mkBuilder (value b) (containers b) (Some k).

Fixpoint dict_update (k : string) (f : pyval -> result pyval) (d : pydict)
  : result pydict :=
  match d with
  | [] => Err KeyError
  | (k', v) :: t =>
      if String.eqb k k'
      then v' <- f v ;; Ok ((k', v') :: t)
      else t' <- dict_update k f t ;; Ok ((k', v) :: t')
  end.

Fixpoint last_update (f : pyval -> result pyval) (l : list pyval)
  : result (list pyval) :=
  match l with
  | [] => Err IndexError
  | [x] => x' <- f x ;; Ok [x']
  | x :: t => t' <- last_update f t ;; Ok (x :: t')
  end.

(** Mutating the object a reference points to, seen from the root. *)
Fixpoint at_ref (r : ref) (f : pyval -> result pyval) (root : pyval)
  : result pyval :=
  match r with
  | [] => f root
  | at_key k :: r' =>
      match root with
      | PDict d => d' <- dict_update k (at_ref r' f) d ;; Ok (PDict d')
      | _ => Err TypeError
      end
  | at_last :: r' =>
      match root with
      | PList l => l' <- last_update (at_ref r' f) l ;; Ok (PList l')
      | _ => Err TypeError
      end
  end.

(** [mappable[key] = x] *)
Definition setitem (k : string) (x : pyval) (c : pyval) : result pyval :=
  match c with
  | PDict d => Ok (PDict (dict_set k x d))
  | _ => Err TypeError
  end.

(** [array.append(x)] *)
Definition append (x : pyval) (c : pyval) : result pyval :=
  match c with
  | PList l => Ok (PList (l ++ [x]))
  | _ => Err TypeError
  end.

(** Calling a setter with [x]: the root afterwards, given the [key] and the
    root at the time of the call. *)
Definition store (s : setter) (k : option string) (root : option pyval)
                 (x : pyval) : result pyval :=
  match s with
  | initial_set => Ok x
  | map_setter mappable =>
      match k, root with
      | Some k, Some root => at_ref mappable (setitem k x) root
      | _, _ => Err AttributeError
      end
  | array_append array =>
      match root with
      | Some root => at_ref array (append x) root
      | None => Err AttributeError
      end
  end.

Definition call_setter (s : setter) (b : ObjectBuilder) (x : pyval)
  : result ObjectBuilder :=
  root' <- store s (key b) (value b) x ;; Ok (set_value b root').

(** Where the object just handed to a setter can be found afterwards. *)
Definition stored_at (s : setter) (k : option string) : result ref :=
  match s with
  | initial_set => Ok []
  | map_setter mappable =>
      match k with
      | Some k => Ok (mappable ++ [at_key k])
      | None => Err AttributeError
      end
  | array_append array => Ok (array ++ [at_last])
  end.

(** [self.containers[-1]] *)
Definition top (b : ObjectBuilder) : result setter :=
  match containers b with
  | s :: _ => Ok s
  | [] => Err IndexError
  end.

(** The value a scalar event carries. *)
Definition scalar_value (ev : event) : pyval :=
  match ev with
  | boolean b => PBool b
  | integer n => PInt n
  | double m e => PDecimal m e
  | string_ s => PStr s
  | map_key k => PStr k
  | _ => PNone
  end.

(** [ObjectBuilder.event(event, value)] *)
Definition builder_event (b : ObjectBuilder) (ev : event)
  : result ObjectBuilder :=
  match ev with
  | map_key k => Ok (set_key b k)
  | start_map =>
      s <- top b ;;
      b' <- call_setter s b (PDict []) ;;
      mappable <- stored_at s (key b) ;;
      Ok (set_containers b' (map_setter mappable :: containers b'))
  | start_array =>
      s <- top b ;;
      b' <- call_setter s b (PList []) ;;
      array <- stored_at s (key b) ;;
      Ok (set_containers b' (array_append array :: containers b'))
  | end_array | end_map =>
      match containers b with
      | _ :: cs => Ok (set_containers b cs)
      | [] => Err IndexError
      end
  | _ =>
      s <- top b ;;
      call_setter s b (scalar_value ev)
  end.

(** Feeding a run of events. *)
Fixpoint builder_events (b : ObjectBuilder) (evs : list event)
  : result ObjectBuilder :=
  match evs with
  | [] => Ok b
  | ev :: evs' => b' <- builder_event b ev ;; builder_events b' evs'
  end.

(* ================================================================= *)
(** ** pysnow/response.py: class Response *)

(** The [requests.Response] object, as far as [Response] looks at it.
    [raw] is the body as the tokenizer will deliver it to a pass; how much
    of the byte stream a pass leaves unread is a matter of the tokenizer's
    buffering and is not tracked. *)
Record HTTPResponse : Type := mkHTTPResponse {
  status_code : Z;
  request_method : string;
  raw : stream
}.

Record Response : Type := mkResponse {
  _raise_on_empty : bool;
  _response : HTTPResponse;
  _chunk_size : Z;
  _count : Z
}.

(** [Response(response, raise_on_empty, chunk_size)] *)
Definition __init__ (response : HTTPResponse) (raise_on_empty : bool)
                    (chunk_size : Z) : Response :=
  mkResponse raise_on_empty response chunk_size 0.

(** The [count] property. *)
Definition count (self : Response) : Z := _count self.

(** The [count] setter, at an [int] argument. *)
Definition set_count (self : Response) (c : Z) : Response :=
  mkResponse (_raise_on_empty self) (_response self) (_chunk_size self) c.

Definition set_raise_on_empty (self : Response) (b : bool) : Response :=
  mkResponse b (_response self) (_chunk_size self) (_count self).

(** What a generator does when resumed. *)
Inductive outcome (A : Type) : Type :=
| Yield (a : A)
| Return
| Raise (e : exn).
Arguments Yield {A} a.
Arguments Return {A}.
Arguments Raise {A} e.

(** *** _parse_response *)

(** The local variables of [_parse_response].  [builder] is unbound until
    the first match. *)
Record locals : Type := mkLocals {
  has_result_single : bool;
  has_result_many : bool;
  has_error : bool;
  builder : option ObjectBuilder
}.

Definition initial_locals : locals := mkLocals false false false None.

Definition is_start_map (ev : event) : bool :=
  match ev with start_map => true | _ => false end.

Definition is_start_array (ev : event) : bool :=
  match ev with start_array => true | _ => false end.

Definition is_end_map (ev : event) : bool :=
  match ev with end_map => true | _ => false end.

(** [prefix.startswith(s)] *)
Definition startswith (prefix s : string) : bool := String.prefix s prefix.

(** Lines 60-70: the match on the root keys. *)
Definition classify (l : locals) (pe : ParseEvent) : locals :=
  let (prefix, ev) := pe in
  if (prefix =? "error")%string && is_start_map ev then
    mkLocals (has_result_single l) (has_result_many l) true (Some new_builder)
  else if (prefix =? "result")%string
          && (is_start_map ev || is_start_array ev) then
    if is_start_map ev then
      mkLocals true (has_result_many l) (has_error l) (Some new_builder)
    else if is_start_array ev then
      mkLocals (has_result_single l) true (has_error l) (Some new_builder)
    else
      mkLocals (has_result_single l) (has_result_many l) (has_error l)
               (Some new_builder)
  else l.

(** Reading the local [builder]. *)
Definition the_builder (l : locals) : result ObjectBuilder :=
  match builder l with
  | Some b => Ok b
  | None => Err UnboundLocalError
  end.

(** [builder.event(event, value)] *)
Definition feed (l : locals) (ev : event) : result locals :=
  b <- the_builder l ;;
  b' <- builder_event b ev ;;
  Ok (mkLocals (has_result_single l) (has_result_many l) (has_error l)
               (Some b')).

(** [getattr(builder, 'value')] *)
Definition builder_value (l : locals) : result pyval :=
  b <- the_builder l ;;
  match value b with
  | Some v => Ok v
  | None => Err AttributeError
  end.

(** How one turn of the [for] loop ends. *)
Inductive turn : Type :=
| Next (l : locals)
| Yielded (l : locals) (record : pyval)
| Raised (e : exn).

(** Lines 76-78 and 85-87: feed the closing event, count, yield. *)
Definition finish_record (self : Response) (l : locals) (ev : event)
  : Response * turn :=
  match feed l ev with
  | Err e => (self, Raised e)
  | Ok l' =>
      let self' := set_count self (count self + 1) in
      match builder_value l' with
      | Err e => (self', Raised e)
      | Ok v => (self', Yielded l' v)
      end
  end.

(** Lines 81, 90 and 97: feed an inner event. *)
Definition build (l : locals) (ev : event) : turn :=
  match feed l ev with
  | Err e => Raised e
  | Ok l' => Next l'
  end.

(** Lines 72-97: the routing of the event. *)
Definition dispatch (self : Response) (l : locals) (pe : ParseEvent)
  : Response * turn :=
  let (prefix, ev) := pe in
  if has_result_many l then
    if (prefix =? "result.item")%string && is_end_map ev then
      finish_record self l ev
    else if startswith prefix "result.item" then (self, build l ev)
    else (self, Next l)
  else if has_result_single l then
    if (prefix =? "result")%string && is_end_map ev then
      finish_record self l ev
    else if startswith prefix "result" then (self, build l ev)
    else (self, Next l)
  else if has_error l then
    if (prefix =? "error")%string && is_end_map ev then
      match builder_value l with
      | Ok v => (self, Raised (ResponseError v))
      | Err e => (self, Raised e)
      end
    else if startswith prefix "error" then (self, build l ev)
    else (self, Next l)
  else (self, Next l).

(** Where a suspended [_parse_response] resumes. *)
Inductive parse_pc : Type :=
| pc_start          (* not started *)
| pc_loop           (* at a yield inside the loop, lines 78 and 87 *)
| pc_empty          (* at the yield of line 105 *)
| pc_done.

(** The generator object: program counter, locals, and what is left of
    [ijson.parse(self._response.raw, buf_size=self._chunk_size)]. *)
Record frame : Type := mkFrame {
  pc : parse_pc;
  vars : locals;
  pending : list ParseEvent;
  ending : stream_end
}.

Definition finished (l : locals) : frame :=
  mkFrame pc_done l [] end_of_document.

(** Lines 107-108. *)
Definition missing_check (self : Response) (l : locals)
  : Response * outcome pyval * frame :=
  if negb (has_result_single l || has_result_many l || has_error l) then
    (self,
     Raise (MissingResult
       "The expected `result` key was missing in the response. Cannot continue"),
     finished l)
  else (self, Return, finished l).

(** Lines 99-108, reached when the event stream is exhausted. *)
Definition after_loop (self : Response) (l : locals)
  : Response * outcome pyval * frame :=
  if (has_result_single l || has_result_many l) && (count self =? 0) then
    if _raise_on_empty self then
      (self, Raise (NoResults "Query yielded no results"), finished l)
    else
      (self, Yield (PDict []), mkFrame pc_empty l [] end_of_document)
  else missing_check self l.

(** Lines 59-97: the loop, run to its next yield. *)
Fixpoint loop (self : Response) (l : locals) (evs : list ParseEvent)
              (fin : stream_end) : Response * outcome pyval * frame :=
  match evs with
  | [] =>
      match fin with
      | malformed => (self, Raise JSONError, finished l)
      | end_of_document => after_loop self l
      end
  | pe :: evs' =>
      match dispatch self (classify l pe) pe with
      | (self', Next l') => loop self' l' evs' fin
      | (self', Yielded l' v) => (self', Yield v, mkFrame pc_loop l' evs' fin)
      | (self', Raised e) => (self', Raise e, finished (classify l pe))
      end
  end.

(** Calling [self._parse_response()] makes the generator object; nothing
    runs yet. *)
Definition _parse_response (self : Response) : frame :=
  mkFrame pc_start initial_locals [] end_of_document.

(** [next(g)] on the generator of [_parse_response]. *)
Definition parse_next (self : Response) (g : frame)
  : Response * outcome pyval * frame :=
  match pc g with
  | pc_start =>
      loop self initial_locals
           (stream_events (raw (_response self)))
           (stream_ending (raw (_response self)))
  | pc_loop => loop self (vars g) (pending g) (ending g)
  | pc_empty => missing_check self (vars g)
  | pc_done => (self, Return, g)
  end.

(** *** _get_validated_response *)

(** [requests.Response.raise_for_status]: client and server error codes
    raise [HTTPError]. *)
Definition raise_for_status (response : HTTPResponse) : result unit :=
  if (400 <=? status_code response) && (status_code response <? 600)
  then Err (HTTPError (status_code response))
  else Ok tt.

(** What [_get_validated_response] yields: a list literal or the generator
    of [_parse_response]. *)
Inductive iterable : Type :=
| a_list (l : list pyval)
| a_generator (g : frame).

(** Where a suspended [_get_validated_response] resumes. *)
Inductive gate_pc : Type :=
| gate_start
| gate_deleted      (* at the yield of line 123 *)
| gate_404          (* at the yield of line 134 *)
| gate_parse        (* at the yield of line 139 *)
| gate_done.

(** Line 139. *)
Definition yield_parse (self : Response) : outcome iterable * gate_pc :=
  (Yield (a_generator (_parse_response self)), gate_parse).

(** [next(g)] on the generator of [_get_validated_response]. *)
Definition gate_next (self : Response) (g : gate_pc)
  : outcome iterable * gate_pc :=
  match g with
  | gate_start =>
      let response := _response self in
      if (request_method response =? "DELETE")%string
         && (status_code response =? 204)
      then (Yield (a_list [PDict [("status", PStr "record deleted")]]),
            gate_deleted)
      else
        match raise_for_status response with
        | Err e =>
            if status_code response =? 404 then
              if _raise_on_empty self
              then (Raise (NoResults "Query yielded no results"), gate_done)
              else (Yield (a_list [PDict []]), gate_404)
            else (Raise e, gate_done)
        | Ok _ => yield_parse self
        end
  | gate_deleted => (Return, gate_done)
  | gate_404 => yield_parse self
  | gate_parse => (Return, gate_done)
  | gate_done => (Return, gate_done)
  end.

(** How many more iterables a suspended gate can still yield. *)
Definition gate_left (g : gate_pc) : nat :=
  match g with
  | gate_start => 2
  | gate_404 => 1
  | _ => 0
  end.

(** *** all: itertools.chain.from_iterable *)


Inductive iterator : Type :=
| list_iterator (rest : list pyval)
| generator_iterator (g : frame).

(** [iter(it)] *)
Definition iter (it : iterable) : iterator :=
  match it with
  | a_list l => list_iterator l
  | a_generator g => generator_iterator g
  end.

Definition iterator_next (self : Response) (it : iterator)
  : Response * outcome pyval * iterator :=
  match it with
  | list_iterator [] => (self, Return, it)
  | list_iterator (x :: rest) => (self, Yield x, list_iterator rest)
  | generator_iterator g =>
      let '(self', o, g') := parse_next self g in
      (self', o, generator_iterator g')
  end.

(** The chain object: the outer generator and the iterator it is currently
    draining. *)
Record chain : Type := mkChain {
  outer : gate_pc;
  inner : option iterator
}.

Definition exhausted : chain := mkChain gate_done None.

(** Fetch iterables from the outer generator until one of them yields.
    [n] bounds the iterables still to come. *)
Fixpoint from_outer (n : nat) (self : Response) (g : gate_pc)
  : Response * outcome pyval * chain :=
  match gate_next self g with
  | (Return, g') => (self, Return, mkChain g' None)
  | (Raise e, g') => (self, Raise e, mkChain g' None)
  | (Yield it, g') =>
      match iterator_next self (iter it) with
      | (self', Yield v, it') => (self', Yield v, mkChain g' (Some it'))
      | (self', Raise e, it') => (self', Raise e, mkChain g' (Some it'))
      | (self', Return, it') =>
          match n with
          | S n' => from_outer n' self' g'
          | O => (self', Return, mkChain g' None)
          end
      end
  end.

(** [next(c)] on a chain. *)
Definition chain_next (self : Response) (c : chain)
  : Response * outcome pyval * chain :=
  match inner c with
  | Some it =>
      match iterator_next self it with
      | (self', Yield v, it') => (self', Yield v, mkChain (outer c) (Some it'))
      | (self', Raise e, it') => (self', Raise e, mkChain (outer c) (Some it'))
      | (self', Return, _) => from_outer (gate_left (outer c)) self' (outer c)
      end
  | None => from_outer (gate_left (outer c)) self (outer c)
  end.

(** [all()]: [chain.from_iterable(self._get_validated_response())]. *)
Definition all (self : Response) : chain := mkChain gate_start None.

(** *** The accessors *)

(** [next(self.all())] as an expression: the value, or the exception. *)
Definition next_value (o : outcome pyval) : result pyval :=
  match o with
  | Yield v => Ok v
  | Return => Err StopIteration
  | Raise e => Err e
  end.

Definition first (self : Response) : Response * result pyval :=
  let self := set_raise_on_empty self true in
  let '(self, o, _) := chain_next self (all self) in
  (self, next_value o).

Definition or_none (r : Response * result pyval) : Response * result pyval :=
  match r with
  | (self, Err (NoResults _)) => (self, Ok PNone)
  | _ => r
  end.

Definition first_or_none (self : Response) : Response * result pyval :=
  or_none (first self).

Definition one (self : Response) : Response * result pyval :=
  let self := set_raise_on_empty self true in
  let r := all self in
  let '(self, o, r) := chain_next self r in
  match next_value o with
  | Err e => (self, Err e)
  | Ok result =>
      let '(self, o, r) := chain_next self r in
      match next_value o with
      | Err StopIteration => (self, Ok result)
      | Err e => (self, Err e)
      | Ok _ =>
          (self,
           Err (MultipleResults "Expected single-record result, got multiple"))
      end
  end.

Definition one_or_none (self : Response) : Response * result pyval :=
  or_none (one self).

(** *** Iterating to the end *)

(** How a [for] loop over an iterator ends. *)
Inductive stop : Type :=
| Exhausted
| Failed (e : exn)
| Running.

Section Consume.

Context {St : Type}.
Variable next : Response -> St -> Response * outcome pyval * St.

(** Pull at most [fuel] times.  Every record is listed with the [count]
    the consumer reads on receiving it. *)
Fixpoint consume (fuel : nat) (self : Response) (st : St)
  : list (pyval * Z) * stop * Response :=
  match fuel with
  | O => ([], Running, self)
  | S fuel' =>
      match next self st with
      | (self', Yield v, st') =>
          let '(tr, e, final) := consume fuel' self' st' in
          ((v, count self') :: tr, e, final)
      | (self', Return, _) => ([], Exhausted, self')
      | (self', Raise e, _) => ([], Failed e, self')
      end
  end.

End Consume.


(* ================================================================= *)
(** ** pysnow/oauth_client.py: OAuthClient.set_token *)

(** The attributes of the client that token handling touches. *)
Record OAuthClient : Type := mkOAuthClient {
  token : pyval;
  client_id : string;
  client_secret : string;
  token_url : string
}.

(** Python's truth value of an object. *)
Definition truthy (v : pyval) : bool :=
  match v with
  | PNone => false
  | PBool b => b
  | PInt n => negb (n =? 0)
  | PDecimal m _ => negb (m =? 0)
  | PStr s => negb (s =? "")%string
  | PList l => negb (Nat.eqb (List.length l) 0)
  | PDict d => negb (Nat.eqb (List.length d) 0)
  end.

(** [isinstance(v, dict)] *)
Definition isinstance_dict (v : pyval) : bool :=
  match v with
  | PDict _ => true
  | _ => false
  end.

(** [set(token)] for a dict: its keys. *)
Definition key_set (v : pyval) : list string :=
  match v with
  | PDict d => map fst d
  | _ => []
  end.

Definition expected_keys : list string :=
  ["token_type"; "refresh_token"; "access_token"; "scope"; "expires_in";
   "expires_at"].

(** [a <= b] on sets *)
Definition subset (a b : list string) : bool :=
  forallb (fun k => existsb (String.eqb k) b) a.

Definition with_token (self : OAuthClient) (t : pyval) : OAuthClient :=
  mkOAuthClient t (client_id self) (client_secret self) (token_url self).

Definition set_token (self : OAuthClient) (tok : pyval)
  : OAuthClient * result unit :=
  if negb (truthy tok) then (with_token self PNone, Ok tt)
  else if negb (isinstance_dict tok)
          || negb (subset expected_keys (key_set tok)) then
    (self,
     Err (InvalidUsage
       "Token should contain a dictionary obtained using fetch_token()"))
  else (with_token self tok, Ok tt).

(* ================================================================= *)
(** ** pysnow/oauth_client.py: the session, the constructor and the gates *)

(** The two ways the module builds a [requests_oauthlib.OAuth2Session]:
    [OAuth2Session(client=LegacyApplicationClient(client_id=...))] in the
    constructor, and the call of [_get_oauth_session]. *)
Inductive session (U : Type) : Type :=
| legacy_session (client_id : string)
| token_session (client_id : string) (token : pyval) (token_updater : U)
                (auto_refresh_url : string)
                (auto_refresh_kwargs : list (string * string)).
Arguments legacy_session {U} client_id.
Arguments token_session {U} client_id token token_updater auto_refresh_url
  auto_refresh_kwargs.

(** A client object: the attributes of [OAuthClient] above, the token
    updater it was given, and the [session] attribute of the parent
    class.  [U] is the type of token updaters. *)
Record OAuthClientInstance (U : Type) : Type := mkInstance {
  oauth : OAuthClient;
  token_updater : U;
  client_session : session U
}.
Arguments mkInstance {U} oauth token_updater client_session.
Arguments oauth {U} o.
Arguments token_updater {U} o.
Arguments client_session {U} o.

(** What [resource] and [_legacy_request] raise: [MissingToken] of
    [pysnow.exceptions], or whatever the parent class raises. *)
Inductive oauth_error : Type :=
| MissingToken (msg : string)
| Propagated (e : exn).

Inductive attempt (A : Type) : Type :=
| Done (a : A)
| Failing (e : oauth_error).
Arguments Done {A} a.
Arguments Failing {A} e.

(** [_get_oauth_session] *)
Definition _get_oauth_session {U : Type} (self : OAuthClientInstance U)
  : session U :=
  token_session (client_id (oauth self)) (token (oauth self))
                (token_updater self) (token_url (oauth self))
                [("client_id", client_id (oauth self));
                 ("client_secret", client_secret (oauth self))].

Definition with_session {U : Type} (self : OAuthClientInstance U)
           (s : session U) : OAuthClientInstance U :=
  mkInstance (oauth self) (token_updater self) s.

(** [set_token] on the whole object. *)
Definition instance_set_token {U : Type} (self : OAuthClientInstance U)
           (tok : pyval) : OAuthClientInstance U * result unit :=
  let (o, r) := set_token (oauth self) tok in
  (mkInstance o (token_updater self) (client_session self), r).

(** The common shape of [resource] and [_legacy_request]: with a dict as
    token, make a fresh session and hand over to the method of the parent
    class, here [parent], which sees the object with its new session;
    without one, raise [MissingToken]. *)
Definition with_token_session {U A R : Type}
           (parent : OAuthClientInstance U -> A -> result R)
           (msg : string)
           (self : OAuthClientInstance U) (args : A)
  : OAuthClientInstance U * attempt R :=
  if isinstance_dict (token (oauth self)) then
    let self' := with_session self (_get_oauth_session self) in
    match parent self' args with
    | Ok r => (self', Done r)
    | Err e => (self', Failing (Propagated e))
    end
  else (self, Failing (MissingToken msg)).

(** [resource(api_path, base_path)]; [Client_resource] is the method of
    the parent class. *)
Definition resource {U R : Type}
           (Client_resource : OAuthClientInstance U -> pyval * pyval -> result R)
           (self : OAuthClientInstance U) (api_path base_path : pyval)
  : OAuthClientInstance U * attempt R :=
  with_token_session Client_resource
    "You must set_token() before creating a resource with OAuthClient"
    self (api_path, base_path).

(** [_legacy_request], with whatever arguments; [Client_legacy_request]
    is the method of the parent class and [A] the type of its
    arguments. *)
Definition _legacy_request {U A R : Type}
           (Client_legacy_request : OAuthClientInstance U -> A -> result R)
           (self : OAuthClientInstance U) (args : A)
  : OAuthClientInstance U * attempt R :=
  with_token_session Client_legacy_request
    "You must set_token() before creating a legacy request with OAuthClient"
    self args.

(** A keyword argument of the constructor: a plain value, the session the
    constructor makes, or some other object of the caller (a
    [requests.Session], say), which is truthy. *)
Inductive kwarg (U : Type) : Type :=
| kw_value (v : pyval)
| kw_session (s : session U)
| kw_object.
Arguments kw_value {U} v.
Arguments kw_session {U} s.
Arguments kw_object {U}.

Definition kwargs (U : Type) : Type := list (string * kwarg U).

Definition kwarg_truthy {U : Type} (a : kwarg U) : bool :=
  match a with
  | kw_value v => truthy v
  | kw_session _ => true
  | kw_object => true
  end.

(** [kwargs.get(k)], as a truth value ([None] when absent). *)
Fixpoint kwargs_get_truthy {U : Type} (k : string) (kw : kwargs U) : bool :=
  match kw with
  | [] => false
  | (k', a) :: t =>
      if String.eqb k k' then kwarg_truthy a else kwargs_get_truthy k t
  end.

Fixpoint kwargs_get {U : Type} (k : string) (kw : kwargs U)
  : option (kwarg U) :=
  match kw with
  | [] => None
  | (k', a) :: t => if String.eqb k k' then Some a else kwargs_get k t
  end.

(** [kwargs[k] = a] *)
Fixpoint kwargs_set {U : Type} (k : string) (a : kwarg U) (kw : kwargs U)
  : kwargs U :=
  match kw with
  | [] => [(k, a)]
  | (k', a') :: t =>
      if String.eqb k k' then (k', a) :: t else (k', a') :: kwargs_set k a t
  end.

(** The truth value of a [client_id] or [client_secret] argument: a
    string, or [None]. *)
Definition given (a : option string) : bool :=
  match a with
  | Some s => negb (s =? "")%string
  | None => false
  end.

(** What a call of the constructor does: whether it warned, the keyword
    arguments it handed to the constructor of the parent class, and the
    object, or the exception. *)
Record construction (U : Type) : Type := mkConstruction {
  warned : bool;
  parent_kwargs : option (kwargs U);
  constructed : result (OAuthClientInstance U)
}.
Arguments mkConstruction {U} warned parent_kwargs constructed.
Arguments warned {U} c.
Arguments parent_kwargs {U} c.
Arguments constructed {U} c.

(** The constructor, with its keyword arguments in [kw].
    [Client_init] is the constructor of the parent class: from the
    keyword arguments, the [base_url] and the [session] it leaves on the
    object, or an exception. *)
Definition OAuthClient_init {U : Type}
           (Client_init : kwargs U -> result (string * session U))
           (client_id client_secret : option string) (token_updater : U)
           (kw : kwargs U) : construction U :=
  match client_secret, client_id with
  | Some secret, Some id =>
      if negb (given client_secret && given client_id) then
        mkConstruction false None
          (Err (InvalidUsage "You must supply a client_id and client_secret"))
      else
        let warn := kwargs_get_truthy "session" kw
                    || kwargs_get_truthy "user" kw in
        let kw := kwargs_set "session" (kw_session (legacy_session id)) kw in
        let kw := kwargs_set "user" (kw_value PNone) kw in
        let kw := kwargs_set "password" (kw_value PNone) kw in
        match Client_init kw with
        | Err e => mkConstruction warn (Some kw) (Err e)
        | Ok (base_url, s) =>
            mkConstruction warn (Some kw)
              (Ok (mkInstance
                     (mkOAuthClient PNone id secret
                                    (base_url ++ "/oauth_token.do")%string)
                     token_updater s))
        end
  | _, _ =>
      mkConstruction false None
        (Err (InvalidUsage "You must supply a client_id and client_secret"))
  end.

(* ================================================================= *)
(** ** Vocabulary of the statements *)

(** The [key] attribute of a builder after the events of [j]. *)
Fixpoint last_key (j : json) (k : option string) : option string :=
  match j with
  | JArray items => fold_left (fun k j' => last_key j' k) items k
  | JObject members =>
      fold_left (fun k kv => last_key (snd kv) (Some (fst kv))) members k
  | _ => k
  end.

Definition is_object (j : json) : bool :=
  match j with
  | JObject _ => true
  | _ => false
  end.

(** The gate hands the body to [_parse_response] and yields nothing else:
    the request is not a DELETE answered with 204 and the status is not an
    error status. *)
Definition gate_passes (response : HTTPResponse) : bool :=
  negb ((request_method response =? "DELETE")%string
        && (status_code response =? 204))
  && negb ((400 <=? status_code response) && (status_code response <? 600)).

(** A member of the root object that [_parse_response] matches: [result]
    holding an object or an array, [error] holding an object. *)
Definition root_match (kv : string * json) : bool :=
  match snd kv with
  | JObject _ => (fst kv =? "error")%string || (fst kv =? "result")%string
  | JArray _ => (fst kv =? "result")%string
  | _ => false
  end.

Definition root_matches (j : json) : bool :=
  match j with
  | JObject members => existsb root_match members
  | _ => false
  end.

(** [vs] as a consumer receives them while [count] goes up from [c]. *)
Fixpoint numbered (c : Z) (vs : list pyval) : list (pyval * Z) :=
  match vs with
  | [] => []
  | v :: vs' => (v, c + 1) :: numbered (c + 1) vs'
  end.


(** Iterating [all()] fails with [e] before any record, and so does each
    of the four accessors. *)
Definition every_accessor_fails (self : Response) (e : exn) : Prop :=
  (forall fuel, exists final,
      consume chain_next (S fuel) self (all self) = ([], Failed e, final))
  /\ snd (first self) = Err e
  /\ snd (first_or_none self) = Err e
  /\ snd (one self) = Err e
  /\ snd (one_or_none self) = Err e.

(** The builder after the events of [j], fed while the setter [s] is on
    top of its stack. *)
Definition fed (b : ObjectBuilder) (s : setter) (j : json)
  : result ObjectBuilder :=
  root' <- store s (key b) (value b) (loads j) ;;
  Ok (mkBuilder (Some root') (containers b) (last_key j (key b))).

(** Feeding the events of [j], wherever [j] sits in the document, hands
    the value [j] denotes to the setter on top. *)
Definition builds (j : json) : Prop :=
  forall p b s cs x0 r0,
    containers b = s :: cs ->
    store s (key b) (value b) x0 = Ok r0 ->
    builder_events b (map snd (events_at p j)) = fed b s j.

(** The prefix [s] lies strictly below the prefix [r]. *)
Definition below (r s : string) : Prop :=
  startswith s r = true /\ (String.length r < String.length s)%nat.

Definition is_map_key (ev : event) : bool :=
  match ev with
  | map_key _ => true
  | _ => false
  end.

(** An event inside the subtree at prefix [r]: strictly below [r], or the
    announcement of a member of the map at [r]. *)
Definition inside (r : string) (pe : ParseEvent) : bool :=
  startswith (fst pe) r
  && (negb (fst pe =? r)%string || is_map_key (snd pe)).

(** The events between the [start_map] and the [end_map] of an object. *)
Definition member_events (p : list string) (members : list (string * json))
  : list ParseEvent :=
  flat_map (fun kv => (join_path p, map_key (fst kv))
                        :: events_at (p ++ [fst kv]) (snd kv))
           members.

(** The subtree the loop is routing events to. *)
Definition routed (l : locals) : option string :=
  if has_result_many l then Some "result.item"
  else if has_result_single l then Some "result"
  else if has_error l then Some "error"
  else None.

Definition set_builder (l : locals) (b : ObjectBuilder) : locals :=
  mkLocals (has_result_single l) (has_result_many l) (has_error l) (Some b).

(** An event that lines 60-70 do not match. *)
Definition unmatched (pe : ParseEvent) : bool :=
  negb ((fst pe =? "error")%string && is_start_map (snd pe))
  && negb ((fst pe =? "result")%string
           && (is_start_map (snd pe) || is_start_array (snd pe))).

Fixpoint has_dot (s : string) : bool :=
  match s with
  | EmptyString => false
  | String c s' => (c =? ".")%char || has_dot s'
  end.

(** The four accessors that force raise-on-empty. *)
Inductive accessor : Type :=
| call_first
| call_first_or_none
| call_one
| call_one_or_none.

Definition call (a : accessor) (self : Response) : Response * result pyval :=
  match a with
  | call_first => first self
  | call_first_or_none => first_or_none self
  | call_one => one self
  | call_one_or_none => one_or_none self
  end.

(** The same object with another body waiting in [raw]. *)
Definition with_raw (self : Response) (body : stream) : Response :=
  mkResponse (_raise_on_empty self)
             (mkHTTPResponse (status_code (_response self))
                             (request_method (_response self)) body)
             (_chunk_size self) (_count self).

(** What is left of the chain after one step of the parse generator. *)
Definition chain_after (o : outcome pyval) (g : frame) : chain :=
  match o with
  | Return => exhausted
  | _ => mkChain gate_parse (Some (generator_iterator g))
  end.

(** The two events that close the array and the root object. *)
Definition array_tail : list ParseEvent :=
  [("result", end_array); ("", end_map)].

(** The locals once the [result] array has been matched. *)
Definition array_locals : locals :=
  mkLocals false true false (Some new_builder).

Definition missing_result : exn :=
  MissingResult
    "The expected `result` key was missing in the response. Cannot continue".

(** The events of a root object up to and including the closing of its
    [error] member. *)
Definition up_to_error (before : list (string * json))
           (members : list (string * json)) : list ParseEvent :=
  ("", start_map)
    :: member_events [] before
    ++ ("", map_key "error") :: events_at ["error"] (JObject members).

Definition no_results : exn := NoResults "Query yielded no results".


(** In array mode, an event that goes to the builder without ending a
    record: under [result.item], and not the closing of an item object. *)
Definition item_event (pe : ParseEvent) : bool :=
  startswith (fst pe) "result.item"
  && negb ((fst pe =? "result.item")%string && is_end_map (snd pe)).

(** The elements of an array that are objects. *)
Definition objects (items : list json) : list json := filter is_object items.

(** How a generator that does not yield ends an iteration. *)
Definition stop_of (o : outcome pyval) : stop :=
  match o with
  | Return => Exhausted
  | Raise e => Failed e
  | Yield _ => Running
  end.

(** The events of a root object up to the elements of its [result]
    array. *)
Definition array_head : list ParseEvent :=
  [("", start_map); ("", map_key "result"); ("result", start_array)].

(** The record the gate yields for a DELETE answered with 204. *)
Definition record_deleted : pyval := PDict [("status", PStr "record deleted")].

(** A result has been matched. *)
Definition result_matched (l : locals) : bool :=
  has_result_many l || has_result_single l.

(** The built-in exceptions that come out of the builder. *)
Definition builder_error (e : exn) : bool :=
  match e with
  | AttributeError | IndexError | KeyError | TypeError | UnboundLocalError =>
      true
  | _ => false
  end.

(** An outcome that is not a [ResponseError]. *)
Definition no_response_error (o : outcome pyval) : Prop :=
  forall v, o <> Raise (ResponseError v).

(** A token [set_token] lets through: [None], or a dict that is not
    empty and holds the six expected keys. *)
Definition valid_token (t : pyval) : Prop :=
  t = PNone
  \/ (truthy t = true /\ isinstance_dict t = true
      /\ forall k, In k expected_keys -> In k (key_set t)).

(** How the exception or the value of the parent's method comes out of
    [resource] and [_legacy_request]. *)
Definition handed_over {R : Type} (r : result R) : attempt R :=
  match r with
  | Ok x => Done x
  | Err e => Failing (Propagated e)
  end.

Definition missing_token_resource : oauth_error :=
  MissingToken "You must set_token() before creating a resource with OAuthClient".

Definition missing_token_legacy : oauth_error :=
  MissingToken
    "You must set_token() before creating a legacy request with OAuthClient".

Definition invalid_client : exn :=
  InvalidUsage "You must supply a client_id and client_secret".

(* ================================================================= *)
(** * Properties *)

(** Induction on documents with the hypothesis for every element of an
    array and every member of an object. *)
Lemma json_nested_ind (P : json -> Prop) :
  P JNull ->
  (forall b, P (JBool b)) ->
  (forall n, P (JInteger n)) ->
  (forall m e, P (JDouble m e)) ->
  (forall s, P (JString s)) ->
  (forall items, Forall P items -> P (JArray items)) ->
  (forall members, Forall (fun kv => P (snd kv)) members ->
                   P (JObject members)) ->
  forall j, P j.
Proof.
  intros Hnull Hbool Hint Hdbl Hstr Harr Hobj.
  fix IH 1.
  intros [ | b | n | m e | s | items | members ].
  - exact Hnull.
  - apply Hbool.
  - apply Hint.
  - apply Hdbl.
  - apply Hstr.
  - apply Harr.
    induction items as [ | j items IHitems ]; constructor.
    + apply IH.
    + exact IHitems.
  - apply Hobj.
    induction members as [ | [k j] members IHmembers ]; constructor.
    + apply IH.
    + exact IHmembers.
Qed.


(* ================================================================= *)
(** ** The builder assembles the value its events denote *)

Lemma bind_Ok {A B : Type} (c : result A) (f : A -> result B) (a : A) :
  c = Ok a -> bind c f = f a.
Proof. intros ->; reflexivity. Qed.

Lemma dict_update_ext (k : string) (f g : pyval -> result pyval) (d : pydict) :
  (forall v, f v = g v) -> dict_update k f d = dict_update k g d.
Proof.
  intros Hfg.
  induction d as [ | [k' v] t IHt ]; simpl.
  - reflexivity.
  - destruct (String.eqb k k').
    + rewrite Hfg; reflexivity.
    + rewrite IHt; reflexivity.
Qed.

Lemma last_update_ext (f g : pyval -> result pyval) (l : list pyval) :
  (forall v, f v = g v) -> last_update f l = last_update g l.
Proof.
  intros Hfg.
  induction l as [ | x t IHt ]; simpl.
  - reflexivity.
  - destruct t as [ | y t' ].
    + rewrite Hfg; reflexivity.
    + rewrite IHt; reflexivity.
Qed.

Lemma at_ref_ext (r : ref) :
  forall f g root,
    (forall v, f v = g v) -> at_ref r f root = at_ref r g root.
Proof.
  induction r as [ | [k | ] r' IHr ]; intros f g root Hfg; simpl.
  - apply Hfg.
  - destruct root; try reflexivity.
    rewrite (dict_update_ext k _ (at_ref r' g)); [ reflexivity | ].
    intros v; apply IHr, Hfg.
  - destruct root; try reflexivity.
    rewrite (last_update_ext _ (at_ref r' g)); [ reflexivity | ].
    intros v; apply IHr, Hfg.
Qed.

Lemma at_ref_app (r r' : ref) :
  forall f root, at_ref (r ++ r') f root = at_ref r (at_ref r' f) root.
Proof.
  induction r as [ | [k | ] r0 IHr ]; intros f root; simpl.
  - reflexivity.
  - destruct root; try reflexivity.
    rewrite (dict_update_ext k _ (at_ref r0 (at_ref r' f)));
      [ reflexivity | intros v; apply IHr ].
  - destruct root; try reflexivity.
    rewrite (last_update_ext _ (at_ref r0 (at_ref r' f)));
      [ reflexivity | intros v; apply IHr ].
Qed.

(** Two mutations through the same reference are one mutation. *)
Lemma dict_update_then (k : string) (f g : pyval -> result pyval) :
  forall d,
    (d' <- dict_update k f d ;; dict_update k g d')
    = dict_update k (fun v => v' <- f v ;; g v') d.
Proof.
  induction d as [ | [k' v] t IHt ]; simpl.
  - reflexivity.
  - destruct (String.eqb k k') eqn:E.
    + destruct (f v) as [ v1 | ]; simpl; [ rewrite E | ]; reflexivity.
    + rewrite <- IHt.
      destruct (dict_update k f t) as [ t1 | ]; simpl; [ rewrite E | ];
        reflexivity.
Qed.

Lemma last_update_nonempty (f : pyval -> result pyval) :
  forall l l', last_update f l = Ok l' -> l' <> [].
Proof.
  intros [ | x [ | y t ] ] l' H.
  - discriminate.
  - simpl in H. destruct (f x); simpl in H; [ | discriminate ].
    injection H as <-. discriminate.
  - change (last_update f (x :: y :: t))
      with (t1 <- last_update f (y :: t) ;; Ok (x :: t1)) in H.
    destruct (last_update f (y :: t)); simpl in H; [ | discriminate ].
    injection H as <-. discriminate.
Qed.

Lemma last_update_then (f g : pyval -> result pyval) :
  forall l,
    (l' <- last_update f l ;; last_update g l')
    = last_update (fun v => v' <- f v ;; g v') l.
Proof.
  induction l as [ | x t IHt ].
  - reflexivity.
  - destruct t as [ | y t' ].
    + simpl. destruct (f x); reflexivity.
    + change (last_update (fun v => v' <- f v ;; g v') (x :: y :: t'))
        with (t2 <- last_update (fun v => v' <- f v ;; g v') (y :: t') ;;
              Ok (x :: t2)).
      rewrite <- IHt.
      change (last_update f (x :: y :: t'))
        with (t1 <- last_update f (y :: t') ;; Ok (x :: t1)).
      destruct (last_update f (y :: t')) as [ t1 | ] eqn:E; simpl.
      * destruct t1 as [ | z t1' ].
        -- exfalso. exact (last_update_nonempty _ _ _ E eq_refl).
        -- reflexivity.
      * reflexivity.
Qed.

Lemma at_ref_then (r : ref) :
  forall f g root,
    (root' <- at_ref r f root ;; at_ref r g root')
    = at_ref r (fun v => v' <- f v ;; g v') root.
Proof.
  induction r as [ | [k | ] r0 IHr ]; intros f g root; simpl.
  - reflexivity.
  - destruct root; try reflexivity.
    rewrite <- (dict_update_ext k _ _ d (IHr f g)).
    rewrite <- dict_update_then.
    destruct (dict_update k (at_ref r0 f) d); reflexivity.
  - destruct root; try reflexivity.
    rewrite <- (last_update_ext _ _ l (IHr f g)).
    rewrite <- last_update_then.
    destruct (last_update (at_ref r0 f) l); reflexivity.
Qed.

Lemma dict_update_set (k : string) (f : pyval -> result pyval) (v : pyval) :
  forall d,
    dict_update k f (dict_set k v d) = (v' <- f v ;; Ok (dict_set k v' d)).
Proof.
  induction d as [ | [k' v0] t IHt ]; simpl.
  - rewrite String.eqb_refl. destruct (f v); reflexivity.
  - destruct (String.eqb k k') eqn:E; simpl; rewrite E.
    + destruct (f v); reflexivity.
    + rewrite IHt. destruct (f v); reflexivity.
Qed.

Lemma last_update_snoc (f : pyval -> result pyval) (x : pyval) :
  forall l, last_update f (l ++ [x]) = (x' <- f x ;; Ok (l ++ [x'])).
Proof.
  induction l as [ | y t IHt ].
  - simpl. destruct (f x); reflexivity.
  - change ((y :: t) ++ [x]) with (y :: (t ++ [x])).
    destruct (t ++ [x]) as [ | z t' ] eqn:E.
    + destruct t; discriminate.
    + change (last_update f (y :: z :: t'))
        with (t1 <- last_update f (z :: t') ;; Ok (y :: t1)).
      rewrite IHt. destruct (f x); reflexivity.
Qed.

(** Mutating an object after it was handed to a setter is the same as
    handing over the mutated object. *)
Lemma store_commute (s : setter) (k : option string) (root : option pyval)
      (c c' root1 : pyval) (cr : ref) (f : pyval -> result pyval) :
  stored_at s k = Ok cr ->
  store s k root c = Ok root1 ->
  f c = Ok c' ->
  at_ref cr f root1 = store s k root c'.
Proof.
  intros Hcr Hst Hf.
  destruct s as [ | m | a ]; simpl in *.
  - injection Hcr as <-. injection Hst as <-. exact Hf.
  - destruct k as [ k | ]; [ | discriminate ].
    destruct root as [ root | ]; [ | discriminate ].
    injection Hcr as <-.
    rewrite at_ref_app.
    rewrite <- (bind_Ok _ (at_ref m (at_ref [at_key k] f)) _ Hst).
    rewrite at_ref_then.
    apply at_ref_ext.
    intros [ | | | | | | d ]; try reflexivity.
    simpl. rewrite dict_update_set. simpl. rewrite Hf. reflexivity.
  - destruct root as [ root | ]; [ | discriminate ].
    injection Hcr as <-.
    rewrite at_ref_app.
    rewrite <- (bind_Ok _ (at_ref a (at_ref [at_last] f)) _ Hst).
    rewrite at_ref_then.
    apply at_ref_ext.
    intros [ | | | | | l | ]; try reflexivity.
    simpl. rewrite last_update_snoc. simpl. rewrite Hf. reflexivity.
Qed.

(** Whether a mutation through a reference succeeds depends only on
    whether it succeeds at the target. *)
Lemma dict_update_total (k : string) (f g : pyval -> result pyval) :
  (forall c c', f c = Ok c' -> exists c'', g c = Ok c'') ->
  forall d d', dict_update k f d = Ok d' -> exists d'', dict_update k g d = Ok d''.
Proof.
  intros Hfg.
  induction d as [ | [k' v] t IHt ]; intros d' H; simpl in *.
  - discriminate.
  - destruct (String.eqb k k').
    + destruct (f v) as [ v1 | ] eqn:E; [ | discriminate ].
      destruct (Hfg _ _ E) as [ v2 -> ]. simpl. eauto.
    + destruct (dict_update k f t) as [ t1 | ]; [ | discriminate ].
      destruct (IHt _ eq_refl) as [ t2 -> ]. simpl. eauto.
Qed.

Lemma last_update_total (f g : pyval -> result pyval) :
  (forall c c', f c = Ok c' -> exists c'', g c = Ok c'') ->
  forall l l', last_update f l = Ok l' -> exists l'', last_update g l = Ok l''.
Proof.
  intros Hfg.
  induction l as [ | x t IHt ]; intros l' H.
  - discriminate.
  - destruct t as [ | y t' ].
    + simpl in *. destruct (f x) as [ x1 | ] eqn:E; [ | discriminate ].
      destruct (Hfg _ _ E) as [ x2 -> ]. simpl. eauto.
    + change (last_update f (x :: y :: t'))
        with (t1 <- last_update f (y :: t') ;; Ok (x :: t1)) in H.
      change (last_update g (x :: y :: t'))
        with (t1 <- last_update g (y :: t') ;; Ok (x :: t1)).
      destruct (last_update f (y :: t')) as [ t1 | ]; [ | discriminate ].
      destruct (IHt _ eq_refl) as [ t2 -> ]. simpl. eauto.
Qed.

Lemma at_ref_total (r : ref) :
  forall f g,
    (forall c c', f c = Ok c' -> exists c'', g c = Ok c'') ->
    forall root root',
      at_ref r f root = Ok root' -> exists root'', at_ref r g root = Ok root''.
Proof.
  induction r as [ | [k | ] r0 IHr ]; intros f g Hfg root root' H; simpl in *.
  - eapply Hfg, H.
  - destruct root; try discriminate.
    destruct (dict_update k (at_ref r0 f) d) as [ d1 | ] eqn:E;
      [ | discriminate ].
    destruct (dict_update_total k _ (at_ref r0 g) (IHr f g Hfg) _ _ E)
      as [ d2 -> ].
    simpl. eauto.
  - destruct root; try discriminate.
    destruct (last_update (at_ref r0 f) l) as [ l1 | ] eqn:E;
      [ | discriminate ].
    destruct (last_update_total _ (at_ref r0 g) (IHr f g Hfg) _ _ E)
      as [ l2 -> ].
    simpl. eauto.
Qed.

(** A setter that accepts one object accepts every object. *)
Lemma store_total (s : setter) (k : option string) (root : option pyval)
      (x y root1 : pyval) :
  store s k root x = Ok root1 -> exists root2, store s k root y = Ok root2.
Proof.
  destruct s as [ | m | a ]; simpl; intros H.
  - eauto.
  - destruct k as [ k | ]; [ | discriminate ].
    destruct root as [ root | ]; [ | discriminate ].
    eapply at_ref_total; [ | exact H ].
    intros [ | | | | | | d ] c' Hc; try discriminate. simpl. eauto.
  - destruct root as [ root | ]; [ | discriminate ].
    eapply at_ref_total; [ | exact H ].
    intros [ | | | | | l | ] c' Hc; try discriminate. simpl. eauto.
Qed.

Lemma store_stored_at (s : setter) (k : option string) (root : option pyval)
      (x root1 : pyval) :
  store s k root x = Ok root1 -> exists cr, stored_at s k = Ok cr.
Proof.
  destruct s as [ | m | a ]; simpl; intros H; eauto.
  destruct k; [ eauto | discriminate ].
Qed.

Lemma builder_events_app (evs1 evs2 : list event) :
  forall b,
    builder_events b (evs1 ++ evs2)
    = (b' <- builder_events b evs1 ;; builder_events b' evs2).
Proof.
  induction evs1 as [ | ev evs1 IH ]; intros b; simpl.
  - reflexivity.
  - destruct (builder_event b ev) as [ b1 | ]; simpl.
    + apply IH.
    + reflexivity.
Qed.

(** Filling an open list element by element. *)
Lemma fill_array (s : setter) (k0 : option string) (v0 : option pyval)
      (ar : ref) (cs : list setter) (p : list string) :
  stored_at s k0 = Ok ar ->
  forall items,
    Forall builds items ->
    forall acc root kcur,
      store s k0 v0 (PList acc) = Ok root ->
      builder_events (mkBuilder (Some root) (array_append ar :: cs) kcur)
                     (map snd (flat_map (events_at p) items))
      = (root' <- store s k0 v0 (PList (acc ++ map loads items)) ;;
         Ok (mkBuilder (Some root') (array_append ar :: cs)
                       (fold_left (fun k j' => last_key j' k) items kcur))).
Proof.
  intros Har items Hitems.
  induction Hitems as [ | j items Hj _ IH ]; intros acc root kcur Hroot.
  - simpl. rewrite app_nil_r, Hroot. reflexivity.
  - cbn [flat_map fold_left map]. rewrite map_app, builder_events_app.
    assert (Hstep : forall x,
               store (array_append ar) kcur (Some root) x
               = store s k0 v0 (PList (acc ++ [x]))).
    { intros x. simpl.
      apply (store_commute s k0 v0 (PList acc)); auto. }
    destruct (store_total s k0 v0 _ (PList (acc ++ [PNone])) _ Hroot)
      as [ r0 Hr0 ].
    destruct (store_total s k0 v0 _ (PList (acc ++ [loads j])) _ Hroot)
      as [ root2 Hroot2 ].
    rewrite (Hj p (mkBuilder (Some root) (array_append ar :: cs) kcur)
                (array_append ar) cs PNone r0 eq_refl).
    2:{ cbn [key value]. rewrite Hstep. exact Hr0. }
    unfold fed. cbn [key value containers].
    rewrite Hstep, Hroot2. cbn [bind].
    rewrite (IH _ _ _ Hroot2).
    rewrite <- app_assoc. reflexivity.
Qed.

(** Filling an open dict member by member. *)
Lemma fill_map (s : setter) (k0 : option string) (v0 : option pyval)
      (mr : ref) (cs : list setter) (p : list string) :
  stored_at s k0 = Ok mr ->
  forall members,
    Forall (fun kv => builds (snd kv)) members ->
    forall acc root kcur,
      store s k0 v0 (PDict acc) = Ok root ->
      builder_events
        (mkBuilder (Some root) (map_setter mr :: cs) kcur)
        (map snd (flat_map
                    (fun kv => (join_path p, map_key (fst kv))
                                 :: events_at (p ++ [fst kv]) (snd kv))
                    members))
      = (root' <- store s k0 v0
                    (PDict (fold_left
                              (fun d kv => dict_set (fst kv) (loads (snd kv)) d)
                              members acc)) ;;
         Ok (mkBuilder (Some root') (map_setter mr :: cs)
                       (fold_left (fun k kv => last_key (snd kv) (Some (fst kv)))
                                  members kcur))).
Proof.
  intros Hmr members Hmembers.
  induction Hmembers as [ | [k j] members Hj _ IH ]; intros acc root kcur Hroot.
  - simpl. rewrite Hroot. reflexivity.
  - cbn [flat_map fst snd map app builder_events builder_event bind set_key
         value containers key fold_left].
    rewrite map_app, builder_events_app.
    unfold set_key. cbn [value containers key].
    assert (Hstep : forall x,
               store (map_setter mr) (Some k) (Some root) x
               = store s k0 v0 (PDict (dict_set k x acc))).
    { intros x. simpl.
      apply (store_commute s k0 v0 (PDict acc)); auto. }
    destruct (store_total s k0 v0 _ (PDict (dict_set k PNone acc)) _ Hroot)
      as [ r0 Hr0 ].
    destruct (store_total s k0 v0 _ (PDict (dict_set k (loads j) acc)) _ Hroot)
      as [ root2 Hroot2 ].
    simpl in Hj.
    rewrite (Hj (p ++ [k])
                (mkBuilder (Some root) (map_setter mr :: cs) (Some k))
                (map_setter mr) cs PNone r0 eq_refl).
    2:{ cbn [key value]. rewrite Hstep. exact Hr0. }
    unfold fed. cbn [key value containers].
    rewrite Hstep, Hroot2. cbn [bind].
    rewrite (IH _ _ _ Hroot2).
    reflexivity.
Qed.

Lemma map_snd_wrap (open close : ParseEvent) (inner : list ParseEvent) :
  map snd (open :: inner ++ [close])
  = snd open :: map snd inner ++ [snd close].
Proof. simpl. rewrite map_app. reflexivity. Qed.

(** The builder hands the denoted value to the setter on top of its
    stack and leaves the stack as it found it. *)
Lemma builder_builds : forall j, builds j.
Proof.
  induction j as [ | b0 | n | m e | s0 | items IH | members IH ]
    using json_nested_ind;
    intros p b s cs x0 r0 Hcs Hgood.
  1-5: (simpl; unfold top, call_setter, fed; rewrite Hcs; simpl;
        match goal with
        | |- context [ store ?s' ?k' ?v' ?x ] =>
            destruct (store_total s' k' v' _ x _ Hgood) as [ r1 Hr1 ];
            rewrite Hr1
        end;
        destruct b; simpl in *; subst; reflexivity).
  - destruct (store_total s _ _ _ (PList []) _ Hgood) as [ r1 Hr1 ].
    destruct (store_stored_at s _ _ _ _ Hgood) as [ ar Har ].
    cbn [events_at]. rewrite map_snd_wrap. cbn [snd builder_events].
    unfold builder_event at 1, top, call_setter.
    rewrite Hcs. cbn [bind]. rewrite Hr1. cbn [bind]. rewrite Har.
    unfold set_containers, set_value.
    cbn [bind containers value key]. rewrite Hcs.
    rewrite builder_events_app.
    rewrite (fill_array s (key b) (value b) ar (s :: cs) _ Har items IH
                        [] r1 (key b) Hr1).
    unfold fed. cbn [loads app].
    destruct (store s (key b) (value b) (PList (map loads items)));
      cbn [bind builder_events builder_event containers set_containers
           value key last_key].
    + rewrite Hcs. reflexivity.
    + reflexivity.
  - destruct (store_total s _ _ _ (PDict []) _ Hgood) as [ r1 Hr1 ].
    destruct (store_stored_at s _ _ _ _ Hgood) as [ mr Hmr ].
    cbn [events_at]. rewrite map_snd_wrap. cbn [snd builder_events].
    unfold builder_event at 1, top, call_setter.
    rewrite Hcs. cbn [bind]. rewrite Hr1. cbn [bind]. rewrite Hmr.
    unfold set_containers, set_value.
    cbn [bind containers value key]. rewrite Hcs.
    rewrite builder_events_app.
    rewrite (fill_map s (key b) (value b) mr (s :: cs) _ Hmr members IH
                      [] r1 (key b) Hr1).
    unfold fed. cbn [loads].
    destruct (store s (key b) (value b)
                    (PDict (fold_left
                              (fun d kv => dict_set (fst kv) (loads (snd kv)) d)
                              members [])));
      cbn [bind builder_events builder_event containers set_containers
           value key last_key].
    + rewrite Hcs. reflexivity.
    + reflexivity.
Qed.

(* ================================================================= *)
(** ** Prefixes of the event stream *)

Lemma join_path_snoc (p : list string) (k : string) :
  p <> [] -> join_path (p ++ [k]) = (join_path p ++ "." ++ k)%string.
Proof.
  unfold join_path.
  induction p as [ | x p IH ]; intros Hp.
  - contradiction.
  - destruct p as [ | y p' ].
    + reflexivity.
    + change (String.concat "." ((x :: y :: p') ++ [k]))
        with (x ++ "." ++ String.concat "." ((y :: p') ++ [k]))%string.
      rewrite IH by discriminate.
      change (String.concat "." (x :: y :: p'))
        with (x ++ "." ++ String.concat "." (y :: p'))%string.
      generalize (String.concat "." (y :: p')); intros t.
      clear. induction x as [ | c x IHx ]; simpl.
      * reflexivity.
      * f_equal. exact IHx.
Qed.

Lemma snoc_not_nil {A : Type} (p : list A) (k : A) : p ++ [k] <> [].
Proof. destruct p; discriminate. Qed.

Lemma prefix_append (r s t : string) :
  String.prefix r s = true -> String.prefix r (s ++ t) = true.
Proof.
  revert s. induction r as [ | c r IH ]; intros s H.
  - destruct (s ++ t)%string; reflexivity.
  - destruct s as [ | d s ]; simpl in *.
    + discriminate.
    + destruct (ascii_dec c d); [ apply IH, H | discriminate ].
Qed.

Lemma prefix_refl (r : string) : String.prefix r r = true.
Proof.
  induction r as [ | c r IH ]; simpl.
  - reflexivity.
  - destruct (ascii_dec c c); [ exact IH | contradiction ].
Qed.

Lemma length_append (s t : string) :
  String.length (s ++ t) = (String.length s + String.length t)%nat.
Proof. induction s as [ | c s IH ]; simpl; [ | rewrite IH ]; reflexivity. Qed.

Lemma below_step (r s k : string) :
  startswith s r = true ->
  (String.length r <= String.length s)%nat ->
  below r (s ++ "." ++ k).
Proof.
  intros Hs Hlen. split.
  - apply prefix_append, Hs.
  - rewrite length_append. simpl. lia.
Qed.

Lemma below_snoc (r s k : string) : below r s -> below r (s ++ "." ++ k).
Proof. intros [Hs Hlen]. apply below_step; [ exact Hs | lia ]. Qed.

Lemma below_neq (r s : string) : below r s -> (s =? r)%string = false.
Proof.
  intros [_ Hlen]. apply String.eqb_neq. intros ->. lia.
Qed.

Lemma below_inside (r : string) (pe : ParseEvent) :
  below r (fst pe) -> inside r pe = true.
Proof.
  intros H. unfold inside.
  rewrite (proj1 H), (below_neq _ _ H). reflexivity.
Qed.

Lemma has_dot_append (s k : string) : has_dot (s ++ "." ++ k) = true.
Proof.
  induction s as [ | c s IH ]; simpl.
  - reflexivity.
  - apply orb_true_iff. right. exact IH.
Qed.

(** A property of prefixes that survives descending holds for every event
    of a subtree once it holds at its root. *)
Lemma events_at_prefixes (Q : string -> Prop) :
  (forall s k, Q s -> Q (s ++ "." ++ k)%string) ->
  forall j p,
    p <> [] -> Q (join_path p) ->
    Forall (fun pe : ParseEvent => Q (fst pe)) (events_at p j).
Proof.
  intros Hstep.
  induction j as [ | b | n | m e | s | items IH | members IH ]
    using json_nested_ind;
    intros p Hp HQ; cbn [events_at].
  1-5: (constructor; [ exact HQ | constructor ]).
  - constructor; [ exact HQ | ].
    apply Forall_app; split; [ | constructor; [ exact HQ | constructor ] ].
    apply Forall_flat_map.
    revert IH. apply Forall_impl. intros j Hj.
    apply Hj; [ apply snoc_not_nil | ].
    rewrite join_path_snoc by exact Hp. apply Hstep, HQ.
  - constructor; [ exact HQ | ].
    apply Forall_app; split; [ | constructor; [ exact HQ | constructor ] ].
    apply Forall_flat_map.
    revert IH. apply Forall_impl. intros [k j] Hj.
    constructor; [ exact HQ | ].
    apply Hj; [ apply snoc_not_nil | ].
    rewrite join_path_snoc by exact Hp. apply Hstep, HQ.
Qed.

(** Between the opening and the closing of the object at [p], every event
    lies inside that subtree. *)
Lemma member_events_inside (p : list string) (members : list (string * json)) :
  p <> [] ->
  Forall (fun pe => inside (join_path p) pe = true) (member_events p members).
Proof.
  intros Hp. unfold member_events.
  apply Forall_flat_map, Forall_forall.
  intros [k j] _. constructor.
  - unfold inside, startswith. cbn [fst snd is_map_key].
    rewrite prefix_refl, orb_true_r. reflexivity.
  - cbn [fst snd].
    assert (H : Forall (fun pe : ParseEvent => below (join_path p) (fst pe))
                       (events_at (p ++ [k]) j)).
    { apply events_at_prefixes.
      - intros s k'. apply below_snoc.
      - apply snoc_not_nil.
      - rewrite join_path_snoc by exact Hp.
        apply below_step; [ apply prefix_refl | lia ]. }
    revert H. apply Forall_impl. intros pe. apply below_inside.
Qed.

(* ================================================================= *)
(** ** The loop of [_parse_response] *)

Lemma loop_cons_next (self self' : Response) (l l' : locals)
      (pe : ParseEvent) (evs : list ParseEvent) (fin : stream_end) :
  dispatch self (classify l pe) pe = (self', Next l') ->
  loop self l (pe :: evs) fin = loop self' l' evs fin.
Proof. intros H. cbn [loop]. rewrite H. reflexivity. Qed.

Lemma loop_cons_yield (self self' : Response) (l l' : locals) (v : pyval)
      (pe : ParseEvent) (evs : list ParseEvent) (fin : stream_end) :
  dispatch self (classify l pe) pe = (self', Yielded l' v) ->
  loop self l (pe :: evs) fin = (self', Yield v, mkFrame pc_loop l' evs fin).
Proof. intros H. cbn [loop]. rewrite H. reflexivity. Qed.

Lemma loop_cons_raise (self self' : Response) (l : locals) (e : exn)
      (pe : ParseEvent) (evs : list ParseEvent) (fin : stream_end) :
  dispatch self (classify l pe) pe = (self', Raised e) ->
  loop self l (pe :: evs) fin
  = (self', Raise e, finished (classify l pe)).
Proof. intros H. cbn [loop]. rewrite H. reflexivity. Qed.

Lemma set_builder_same (l : locals) (b : ObjectBuilder) :
  builder l = Some b -> set_builder l b = l.
Proof. destruct l; simpl; intros ->; reflexivity. Qed.

Lemma build_feeds (l : locals) (b b1 : ObjectBuilder) (ev : event) :
  builder l = Some b ->
  builder_event b ev = Ok b1 ->
  build l ev = Next (set_builder l b1).
Proof.
  intros Hb H1. unfold build, feed, the_builder. rewrite Hb. cbn [bind].
  rewrite H1. reflexivity.
Qed.

Ltac not_this_prefix p s :=
  let E := fresh "E" in
  destruct (String.eqb_spec p s) as [ E | E ];
  [ subst p; try discriminate | ].

(** While a subtree is being routed, an event inside it matches nothing
    and goes to the builder. *)
Lemma routed_inside (self : Response) (l : locals) (r : string)
      (pe : ParseEvent) :
  routed l = Some r ->
  inside r pe = true ->
  classify l pe = l /\ dispatch self l pe = (self, build l (snd pe)).
Proof.
  destruct pe as [prefix ev].
  unfold routed, inside, classify, dispatch. cbn [fst snd].
  intros Hr Hin.
  apply andb_true_iff in Hin. destruct Hin as [Hstart Hdeep].
  destruct (has_result_many l);
    [ | destruct (has_result_single l); [ | destruct (has_error l) ] ];
    try discriminate; injection Hr as <-; rewrite Hstart.
  - not_this_prefix prefix "error". not_this_prefix prefix "result".
    cbn [andb].
    destruct (String.eqb_spec prefix "result.item") as [ -> | _ ];
      [ | split; reflexivity ].
    destruct ev; try discriminate. split; reflexivity.
  - not_this_prefix prefix "error". cbn [andb].
    destruct (String.eqb_spec prefix "result") as [ -> | _ ];
      [ | split; reflexivity ].
    destruct ev; try discriminate. split; reflexivity.
  - destruct (String.eqb_spec prefix "error") as [ -> | _ ].
    + destruct ev; try discriminate. split; reflexivity.
    + cbn [andb]. not_this_prefix prefix "result". split; reflexivity.
Qed.

Lemma routed_set_builder (l : locals) (b : ObjectBuilder) :
  routed (set_builder l b) = routed l.
Proof. reflexivity. Qed.

(** A run of events inside the routed subtree is what the builder is fed;
    the loop goes on after it. *)
Lemma loop_feeds (r : string) (rest : list ParseEvent) (fin : stream_end) :
  forall evs self l b b',
    routed l = Some r ->
    builder l = Some b ->
    Forall (fun pe => inside r pe = true) evs ->
    builder_events b (map snd evs) = Ok b' ->
    loop self l (evs ++ rest) fin = loop self (set_builder l b') rest fin.
Proof.
  induction evs as [ | pe evs IH ]; intros self l b b' Hr Hb Hin Hfed.
  - simpl in Hfed. injection Hfed as <-.
    rewrite (set_builder_same _ _ Hb). reflexivity.
  - inversion Hin as [ | pe0 evs0 Hpe Hevs ]; subst.
    cbn [map builder_events] in Hfed.
    destruct (builder_event b (snd pe)) as [ b1 | ] eqn:E1;
      [ | discriminate ].
    cbn [bind] in Hfed.
    destruct (routed_inside self l r pe Hr Hpe) as [Hc Hd].
    change ((pe :: evs) ++ rest) with (pe :: (evs ++ rest)).
    rewrite (loop_cons_next self self l (set_builder l b1)).
    2:{ rewrite Hc, Hd, (build_feeds l b b1 _ Hb E1). reflexivity. }
    rewrite (IH self (set_builder l b1) b1 b'); auto.
Qed.

(** Before any match, an unmatched event changes nothing. *)
Lemma loop_unmatched (rest : list ParseEvent) (fin : stream_end) :
  forall evs self l,
    routed l = None ->
    Forall (fun pe => unmatched pe = true) evs ->
    loop self l (evs ++ rest) fin = loop self l rest fin.
Proof.
  induction evs as [ | [prefix ev] evs IH ]; intros self l Hr Hun.
  - reflexivity.
  - inversion Hun as [ | pe0 evs0 Hpe Hevs ]; subst.
    change (((prefix, ev) :: evs) ++ rest) with ((prefix, ev) :: (evs ++ rest)).
    rewrite (loop_cons_next self self l l); [ apply IH; assumption | ].
    unfold unmatched in Hpe. cbn [fst snd] in Hpe.
    apply andb_true_iff in Hpe. destruct Hpe as [H1 H2].
    apply negb_true_iff in H1, H2.
    unfold classify. rewrite H1, H2.
    unfold routed in Hr. unfold dispatch.
    destruct (has_result_many l); [ discriminate | ].
    destruct (has_result_single l); [ discriminate | ].
    destruct (has_error l); [ discriminate | ].
    reflexivity.
Qed.

(** What a builder at rest goes through while an object passes. *)
Lemma object_region (p : list string) (members : list (string * json))
      (b : ObjectBuilder) :
  containers b = [initial_set] ->
  exists b2,
    builder_events
      (mkBuilder (Some (PDict [])) [map_setter []; initial_set] (key b))
      (map snd (member_events p members)) = Ok b2
    /\ value b2 = Some (loads (JObject members))
    /\ builder_event b2 end_map
       = Ok (mkBuilder (Some (loads (JObject members))) [initial_set]
                       (last_key (JObject members) (key b))).
Proof.
  intros Hcs.
  pose proof (builder_builds (JObject members) p b initial_set [] PNone PNone
                             Hcs eq_refl) as H.
  unfold fed in H. cbn [store bind] in H. rewrite Hcs in H.
  cbn [events_at] in H. rewrite map_snd_wrap in H.
  cbn [snd builder_events] in H.
  unfold builder_event at 1, top, call_setter in H.
  rewrite Hcs in H.
  cbn [bind store stored_at] in H.
  unfold set_containers, set_value in H.
  cbn [containers value key] in H. rewrite Hcs in H.
  rewrite builder_events_app in H.
  fold (member_events p members) in H.
  destruct (builder_events _ (map snd (member_events p members)))
    as [ b2 | ] eqn:E2; [ | discriminate ].
  cbn [bind builder_events] in H.
  destruct (builder_event b2 end_map) as [ b3 | ] eqn:E3; [ | discriminate ].
  cbn [bind] in H. injection H as ->.
  exists b2. split; [ reflexivity | ]. split; [ | exact E3 ].
  cbn [builder_event] in E3.
  destruct (containers b2); [ discriminate | ].
  injection E3 as Hv _ _. exact Hv.
Qed.

Lemma start_map_at_rest (b : ObjectBuilder) :
  containers b = [initial_set] ->
  builder_event b start_map
  = Ok (mkBuilder (Some (PDict [])) [map_setter []; initial_set] (key b)).
Proof.
  intros Hcs. unfold builder_event, top, call_setter. rewrite Hcs.
  cbn [bind store stored_at]. unfold set_containers, set_value.
  cbn [containers value key]. rewrite Hcs. reflexivity.
Qed.

Lemma finish_record_built (self : Response) (l : locals)
      (b b' : ObjectBuilder) (v : pyval) :
  builder l = Some b ->
  builder_event b end_map = Ok b' ->
  value b' = Some v ->
  finish_record self l end_map
  = (set_count self (count self + 1), Yielded (set_builder l b') v).
Proof.
  intros Hb Hev Hv. unfold finish_record, feed, the_builder.
  rewrite Hb. cbn [bind]. rewrite Hev. cbn [bind].
  unfold builder_value, the_builder. cbn [builder bind]. rewrite Hv.
  reflexivity.
Qed.

(** In array mode an item object is fed to the builder from its opening
    to its closing event, counted and yielded. *)
Lemma loop_item (self : Response) (l : locals) (b : ObjectBuilder)
      (members : list (string * json)) (rest : list ParseEvent)
      (fin : stream_end) :
  has_result_many l = true ->
  builder l = Some b ->
  containers b = [initial_set] ->
  loop self l (events_at ["result"; "item"] (JObject members) ++ rest) fin
  = (set_count self (count self + 1),
     Yield (loads (JObject members)),
     mkFrame pc_loop
             (set_builder l
                (mkBuilder (Some (loads (JObject members))) [initial_set]
                           (last_key (JObject members) (key b))))
             rest fin).
Proof.
  intros Hmany Hb Hcs.
  destruct (object_region ["result"; "item"] members b Hcs)
    as (b2 & Hfed & Hval & Hend).
  cbn [events_at]. fold (member_events ["result"; "item"] members).
  change (join_path ["result"; "item"]) with "result.item".
  rewrite <- app_comm_cons, <- app_assoc.
  rewrite (loop_cons_next self self l
             (set_builder l (mkBuilder (Some (PDict []))
                                       [map_setter []; initial_set] (key b)))).
  2:{ unfold dispatch. cbn [classify String.eqb Ascii.eqb Bool.eqb andb
                            is_start_map].
      rewrite Hmany. cbn.
      rewrite (build_feeds l b _ _ Hb (start_map_at_rest b Hcs)).
      reflexivity. }
  rewrite (loop_feeds "result.item" _ fin _ self _
             (mkBuilder (Some (PDict [])) [map_setter []; initial_set] (key b))
             b2);
    [ | unfold routed; cbn [set_builder has_result_many]; rewrite Hmany;
        reflexivity
      | reflexivity
      | apply (member_events_inside ["result"; "item"]); discriminate
      | exact Hfed ].
  cbn [app].
  rewrite (loop_cons_yield self (set_count self (count self + 1))
             _ (set_builder l (mkBuilder (Some (loads (JObject members)))
                                         [initial_set]
                                         (last_key (JObject members) (key b))))
             (loads (JObject members))).
  - reflexivity.
  - unfold dispatch. cbn [classify String.eqb Ascii.eqb Bool.eqb andb
                          is_start_map set_builder has_result_many].
    rewrite Hmany. cbn [String.eqb Ascii.eqb Bool.eqb andb is_end_map].
    erewrite finish_record_built;
      [ reflexivity | reflexivity | exact Hend | reflexivity ].
Qed.

(* ================================================================= *)
(** ** From the chain to the generator *)

(** Every iterable the gate yields takes at least one off what it can
    still yield. *)
Lemma gate_next_left (self : Response) (g g' : gate_pc) (it : iterable) :
  gate_next self g = (Yield it, g') -> (gate_left g' < gate_left g)%nat.
Proof.
  destruct g; cbn [gate_next yield_parse]; intros H; try discriminate.
  - destruct (_ && _).
    + injection H as _ <-. cbn. lia.
    + destruct (raise_for_status _).
      * injection H as _ <-. cbn. lia.
      * destruct (_ =? 404); [ destruct (_raise_on_empty self) | ];
          try discriminate.
        injection H as _ <-. cbn. lia.
  - injection H as _ <-. cbn. lia.
Qed.

(** The bound handed to [from_outer] is never used up: any bound that
    covers what the gate can still yield gives the same step. *)
Lemma from_outer_enough :
  forall n m self g,
    (gate_left g <= n)%nat -> (gate_left g <= m)%nat ->
    from_outer n self g = from_outer m self g.
Proof.
  induction n as [ | n IH ]; intros [ | m ] self g Hn Hm; cbn [from_outer];
    destruct (gate_next self g) as [[ it | | e ] g'] eqn:E; try reflexivity;
    pose proof (gate_next_left _ _ _ _ E) as Hlt;
    destruct (iterator_next self (iter it)) as [[self' [ v | | e ]] it'];
    try reflexivity; try lia.
  apply IH; lia.
Qed.

Lemma chain_next_parsing (self : Response) (g : frame) :
  chain_next self (mkChain gate_parse (Some (generator_iterator g)))
  = let '(self', o, g') := parse_next self g in
    (self', o, chain_after o g').
Proof.
  unfold chain_next. cbn [inner outer iterator_next].
  destruct (parse_next self g) as [[self' o] g'].
  destruct o; reflexivity.
Qed.

Lemma chain_next_passes (self : Response) :
  gate_passes (_response self) = true ->
  chain_next self (all self)
  = let '(self', o, g') := parse_next self (_parse_response self) in
    (self', o, chain_after o g').
Proof.
  unfold gate_passes, chain_next, all. cbn [inner outer gate_left from_outer].
  intros H. apply andb_true_iff in H. destruct H as [Hdel Hok].
  apply negb_true_iff in Hdel, Hok.
  unfold gate_next, raise_for_status. rewrite Hdel, Hok.
  unfold yield_parse. cbn [iter iterator_next].
  destruct (parse_next self (_parse_response self)) as [[self' o] g'].
  destruct o; reflexivity.
Qed.

Lemma consume_parsing :
  forall fuel self g,
    consume chain_next fuel self
            (mkChain gate_parse (Some (generator_iterator g)))
    = consume parse_next fuel self g.
Proof.
  induction fuel as [ | fuel IH ]; intros self g.
  - reflexivity.
  - cbn [consume]. rewrite chain_next_parsing.
    destruct (parse_next self g) as [[self' o] g'].
    destruct o as [ v | | e ]; cbn [chain_after]; try reflexivity.
    rewrite IH. reflexivity.
Qed.

(** When the gate passes, iterating [all()] is iterating the parse. *)
Lemma consume_all_passes (fuel : nat) (self : Response) :
  gate_passes (_response self) = true ->
  consume chain_next fuel self (all self)
  = consume parse_next fuel self (_parse_response self).
Proof.
  intros Hpass. destruct fuel as [ | fuel ].
  - reflexivity.
  - cbn [consume]. rewrite (chain_next_passes self Hpass).
    destruct (parse_next self (_parse_response self)) as [[self' o] g'].
    destruct o as [ v | | e ]; cbn [chain_after]; try reflexivity.
    rewrite consume_parsing. reflexivity.
Qed.

(* ================================================================= *)
(** ** A result array *)

Lemma set_count_set_count (self : Response) (a b : Z) :
  set_count (set_count self a) b = set_count self b.
Proof. reflexivity. Qed.

Lemma set_count_same (self : Response) (c : Z) :
  c = count self -> set_count self c = self.
Proof. intros ->. destruct self; reflexivity. Qed.

Lemma objects_are_objects (objs : list json) :
  forallb is_object objs = true ->
  exists mss, objs = map JObject mss.
Proof.
  induction objs as [ | j objs IH ]; intros H.
  - exists []. reflexivity.
  - cbn [forallb] in H. apply andb_true_iff in H. destruct H as [Hj Hobjs].
    destruct (IH Hobjs) as [mss ->].
    destruct j; try discriminate.
    exists (members :: mss). reflexivity.
Qed.

Lemma loop_array_tail (self : Response) (l : locals) :
  has_result_many l = true ->
  count self <> 0 ->
  loop self l array_tail end_of_document = (self, Return, finished l).
Proof.
  intros Hmany Hcount. unfold array_tail.
  rewrite (loop_cons_next self self l l).
  2:{ unfold dispatch. cbn [classify String.eqb Ascii.eqb Bool.eqb andb
                            is_start_map is_start_array orb].
      rewrite Hmany. reflexivity. }
  rewrite (loop_cons_next self self l l).
  2:{ unfold dispatch. cbn [classify String.eqb Ascii.eqb Bool.eqb andb
                            is_start_map is_start_array orb].
      rewrite Hmany. reflexivity. }
  cbn [loop]. unfold after_loop, missing_check.
  rewrite Hmany, orb_true_r. cbn [andb orb negb].
  apply Z.eqb_neq in Hcount. rewrite Hcount. reflexivity.
Qed.

(** Iterating the parse over the items of the array. *)
Lemma consume_array :
  forall mss fuel self g l b,
    parse_next self g
    = loop self l
           (flat_map (events_at ["result"; "item"]) (map JObject mss)
                     ++ array_tail)
           end_of_document ->
    has_result_many l = true ->
    builder l = Some b ->
    containers b = [initial_set] ->
    count self + Z.of_nat (List.length mss) <> 0 ->
    (List.length mss < fuel)%nat ->
    consume parse_next fuel self g
    = (numbered (count self) (map loads (map JObject mss)),
       Exhausted,
       set_count self (count self + Z.of_nat (List.length mss))).
Proof.
  induction mss as [ | ms mss IH ];
    intros fuel self g l b Hnext Hmany Hb Hcs Hcount Hfuel;
    (destruct fuel as [ | fuel ]; [ cbn [List.length] in Hfuel; lia | ]);
    cbn [consume]; rewrite Hnext; cbn [map flat_map List.length app] in *.
  - rewrite (loop_array_tail self l Hmany) by lia.
    rewrite set_count_same by (unfold count; lia). reflexivity.
  - rewrite <- app_assoc.
    rewrite (loop_item self l b ms _ _ Hmany Hb Hcs).
    set (b' := mkBuilder (Some (loads (JObject ms))) [initial_set]
                         (last_key (JObject ms) (key b))).
    rewrite (IH fuel (set_count self (count self + 1))
                (mkFrame pc_loop (set_builder l b') _ end_of_document)
                (set_builder l b') b' eq_refl Hmany eq_refl eq_refl).
    + cbn [numbered]. rewrite set_count_set_count.
      unfold count, set_count. cbn [_count].
      replace (_count self + 1 + Z.of_nat (List.length mss))
        with (_count self + Z.of_nat (S (List.length mss))) by lia.
      reflexivity.
    + unfold count, set_count in *. cbn [_count]. lia.
    + lia.
Qed.

Lemma events_result_array (objs : list json) :
  events_at [] (JObject [("result", JArray objs)])
  = ("", start_map) :: ("", map_key "result") :: ("result", start_array)
      :: flat_map (events_at ["result"; "item"]) objs ++ array_tail.
Proof.
  cbn [events_at flat_map fst snd app]. rewrite app_nil_r.
  change (join_path []) with "".
  change (join_path ["result"]) with "result".
  cbn [app]. rewrite <- app_assoc. reflexivity.
Qed.

(** The first resumption on a [result] array runs up to the items. *)
Lemma parse_next_result_array (self : Response) (objs : list json) :
  raw (_response self) = document (JObject [("result", JArray objs)]) ->
  parse_next self (_parse_response self)
  = loop self array_locals
         (flat_map (events_at ["result"; "item"]) objs ++ array_tail)
         end_of_document.
Proof.
  intros Hraw. unfold parse_next, _parse_response. cbn [pc].
  rewrite Hraw. unfold document. cbn [stream_events stream_ending].
  rewrite events_result_array.
  rewrite (loop_cons_next self self initial_locals initial_locals)
    by reflexivity.
  rewrite (loop_cons_next self self initial_locals initial_locals)
    by reflexivity.
  rewrite (loop_cons_next self self initial_locals array_locals)
    by reflexivity.
  reflexivity.
Qed.

Lemma map_fst_numbered (vs : list pyval) :
  forall c, map fst (numbered c vs) = vs.
Proof.
  induction vs as [ | v vs IH ]; intros c; simpl.
  - reflexivity.
  - rewrite IH. reflexivity.
Qed.

(** C2.  For a document [{"result": [o1, ..., on]}] with [n >= 1] whose
    elements are objects, on a fresh [Response] whose gate passes,
    iterating [all()] to the end yields exactly the values of [o1 .. on],
    in document order, the i-th of them received with [count = i]; the
    iteration then ends and [count] is [n]. *)
Theorem all_yields_the_result_array
        (objs : list json) (response : HTTPResponse)
        (raise_on_empty : bool) (chunk_size : Z) (fuel : nat) :
  objs <> [] ->
  forallb is_object objs = true ->
  gate_passes response = true ->
  raw response = document (JObject [("result", JArray objs)]) ->
  (List.length objs < fuel)%nat ->
  let self := __init__ response raise_on_empty chunk_size in
  consume chain_next fuel self (all self)
  = (numbered 0 (map loads objs), Exhausted,
     set_count self (Z.of_nat (List.length objs)))
  /\ map fst (numbered 0 (map loads objs)) = map loads objs
  /\ count (set_count self (Z.of_nat (List.length objs)))
     = Z.of_nat (List.length objs).
Proof.
  intros Hne Hobjs Hpass Hraw Hfuel self.
  split; [ | split; [ apply map_fst_numbered | reflexivity ] ].
  destruct (objects_are_objects objs Hobjs) as [mss ->].
  rewrite consume_all_passes by exact Hpass.
  rewrite length_map in Hfuel |- *.
  apply (consume_array mss fuel self _ array_locals new_builder).
  - apply parse_next_result_array. exact Hraw.
  - reflexivity.
  - reflexivity.
  - reflexivity.
  - destruct mss; [ contradiction | ]. cbn. lia.
  - exact Hfuel.
Qed.

Lemma all_yields_the_result_array_witness :
  let response :=
    mkHTTPResponse 200 "GET"
      (document (JObject [("result",
                           JArray [JObject [("sys_id", JString "a1")];
                                   JObject [("sys_id", JString "b2");
                                            ("active", JBool true)]])])) in
  let self := __init__ response false 1024 in
  consume chain_next 3 self (all self)
  = ([(PDict [("sys_id", PStr "a1")], 1);
      (PDict [("sys_id", PStr "b2"); ("active", PBool true)], 2)],
     Exhausted, set_count self 2).
Proof.
  intros response self.
  apply (all_yields_the_result_array
           [JObject [("sys_id", JString "a1")];
            JObject [("sys_id", JString "b2"); ("active", JBool true)]]
           response false 1024 3);
    [ discriminate | reflexivity | reflexivity | reflexivity | simpl; lia ].
Defined.

(* ================================================================= *)
(** ** A single result object *)

(** Before anything else was matched, the object under [result] is
    matched, fed to a new builder, counted and yielded. *)
Lemma loop_result_object (self : Response) (l : locals)
      (members : list (string * json)) (rest : list ParseEvent)
      (fin : stream_end) :
  has_result_many l = false ->
  loop self l (events_at ["result"] (JObject members) ++ rest) fin
  = (set_count self (count self + 1),
     Yield (loads (JObject members)),
     mkFrame pc_loop
             (mkLocals true false (has_error l)
                (Some (mkBuilder (Some (loads (JObject members)))
                                 [initial_set]
                                 (last_key (JObject members) None))))
             rest fin).
Proof.
  intros Hmany.
  destruct (object_region ["result"] members new_builder eq_refl)
    as (b2 & Hfed & Hval & Hend).
  cbn [events_at]. fold (member_events ["result"] members).
  change (join_path ["result"]) with "result".
  rewrite <- app_comm_cons, <- app_assoc.
  set (b1 := mkBuilder (Some (PDict [])) [map_setter []; initial_set] None).
  rewrite (loop_cons_next self self l
             (mkLocals true false (has_error l) (Some b1))).
  2:{ unfold dispatch.
      cbn [classify String.eqb Ascii.eqb Bool.eqb andb orb is_start_map
           is_start_array has_result_many has_result_single].
      rewrite Hmany.
      cbn [String.eqb Ascii.eqb Bool.eqb andb is_end_map startswith].
      reflexivity. }
  rewrite (loop_feeds "result" _ fin _ self _ b1 b2);
    [ | unfold routed; reflexivity
      | reflexivity
      | apply (member_events_inside ["result"]); discriminate
      | exact Hfed ].
  cbn [app].
  erewrite loop_cons_yield; [ reflexivity | ].
  unfold dispatch.
  cbn [classify set_builder String.eqb Ascii.eqb Bool.eqb andb orb
       is_start_map is_start_array has_result_many has_result_single
       is_end_map].
  erewrite finish_record_built;
    [ reflexivity | reflexivity | exact Hend | reflexivity ].
Qed.

Lemma events_result_object (members : list (string * json)) :
  events_at [] (JObject [("result", JObject members)])
  = ("", start_map) :: ("", map_key "result")
      :: events_at ["result"] (JObject members) ++ [("", end_map)].
Proof.
  cbn [events_at flat_map fst snd app]. rewrite app_nil_r.
  reflexivity.
Qed.

Lemma parse_next_result_object (self : Response)
      (members : list (string * json)) :
  raw (_response self) = document (JObject [("result", JObject members)]) ->
  parse_next self (_parse_response self)
  = (set_count self (count self + 1),
     Yield (loads (JObject members)),
     mkFrame pc_loop
             (mkLocals true false false
                (Some (mkBuilder (Some (loads (JObject members)))
                                 [initial_set]
                                 (last_key (JObject members) None))))
             [("", end_map)] end_of_document).
Proof.
  intros Hraw. unfold parse_next, _parse_response. cbn [pc].
  rewrite Hraw. unfold document. cbn [stream_events stream_ending].
  rewrite events_result_object.
  rewrite (loop_cons_next self self initial_locals initial_locals)
    by reflexivity.
  rewrite (loop_cons_next self self initial_locals initial_locals)
    by reflexivity.
  rewrite loop_result_object by reflexivity.
  reflexivity.
Qed.

(** C7.  For a document [{"result": {...}}], on a fresh [Response] whose
    gate passes, iterating [all()] to the end yields exactly one record,
    the value of that object, received with [count = 1]; the iteration
    then ends with [count] still [1]. *)
Theorem all_yields_the_result_object
        (members : list (string * json)) (response : HTTPResponse)
        (raise_on_empty : bool) (chunk_size : Z) (fuel : nat) :
  gate_passes response = true ->
  raw response = document (JObject [("result", JObject members)]) ->
  (2 <= fuel)%nat ->
  let self := __init__ response raise_on_empty chunk_size in
  consume chain_next fuel self (all self)
  = ([(loads (JObject members), 1)], Exhausted, set_count self 1)
  /\ count (set_count self 1) = 1.
Proof.
  intros Hpass Hraw Hfuel self. split; [ | reflexivity ].
  rewrite consume_all_passes by exact Hpass.
  destruct fuel as [ | [ | fuel ] ]; try lia.
  cbn [consume].
  rewrite (parse_next_result_object self members Hraw).
  reflexivity.
Qed.

Lemma all_yields_the_result_object_witness :
  let response :=
    mkHTTPResponse 200 "GET"
      (document (JObject [("result",
                           JObject [("number", JString "INC01");
                                    ("caller", JObject [("value", JNull)])])]))
  in
  let self := __init__ response true 1024 in
  consume chain_next 2 self (all self)
  = ([(PDict [("number", PStr "INC01");
              ("caller", PDict [("value", PNone)])], 1)],
     Exhausted, set_count self 1).
Proof.
  intros response self.
  apply (all_yields_the_result_object
           [("number", JString "INC01");
            ("caller", JObject [("value", JNull)])]
           response true 1024 2);
    [ reflexivity | reflexivity | lia ].
Defined.

(* ================================================================= *)
(** ** An empty result array *)

(** C5.  For the document [{"result": []}] on a fresh [Response] whose
    gate passes: with raise-on-empty false, iterating [all()] yields
    exactly one record, the empty dict, and ends; with raise-on-empty
    true, the iteration fails with [NoResults] before any record. *)
Theorem empty_result_array
        (response : HTTPResponse) (chunk_size : Z) (fuel : nat) :
  gate_passes response = true ->
  raw response = document (JObject [("result", JArray [])]) ->
  (2 <= fuel)%nat ->
  (let self := __init__ response false chunk_size in
   consume chain_next fuel self (all self)
   = ([(PDict [], 0)], Exhausted, self))
  /\ (let self := __init__ response true chunk_size in
      consume chain_next fuel self (all self)
      = ([], Failed (NoResults "Query yielded no results"), self)).
Proof.
  intros Hpass Hraw Hfuel.
  destruct fuel as [ | [ | fuel ] ]; try lia.
  split; intros self;
    rewrite consume_all_passes by exact Hpass;
    cbn [consume];
    rewrite (parse_next_result_array self [] Hraw);
    reflexivity.
Qed.

Lemma empty_result_array_witness :
  let response :=
    mkHTTPResponse 200 "GET" (document (JObject [("result", JArray [])])) in
  consume chain_next 2 (__init__ response false 1024)
          (all (__init__ response false 1024))
  = ([(PDict [], 0)], Exhausted, __init__ response false 1024)
  /\ consume chain_next 2 (__init__ response true 1024)
             (all (__init__ response true 1024))
     = ([], Failed (NoResults "Query yielded no results"),
        __init__ response true 1024).
Proof.
  intros response.
  apply (empty_result_array response 1024 2);
    [ reflexivity | reflexivity | lia ].
Defined.

(* ================================================================= *)
(** ** one() *)

(** C6.  On a fresh [Response] whose gate passes: for a document
    [{"result": [o1]}] with [o1] an object, [one()] returns the value of
    [o1]; for a document [{"result": [o1, o2, ...]}] with two or more
    objects, [one()] fails with [MultipleResults]. *)
Theorem one_on_result_array
        (o1 : list (string * json)) (others : list json)
        (response : HTTPResponse) (raise_on_empty : bool) (chunk_size : Z) :
  gate_passes response = true ->
  forallb is_object others = true ->
  raw response = document (JObject [("result", JArray (JObject o1 :: others))]) ->
  let self := __init__ response raise_on_empty chunk_size in
  snd (one self)
  = match others with
    | [] => Ok (loads (JObject o1))
    | _ :: _ =>
        Err (MultipleResults "Expected single-record result, got multiple")
    end.
Proof.
  intros Hpass Hobjs Hraw self.
  unfold one.
  set (self1 := set_raise_on_empty self true).
  rewrite (chain_next_passes self1 Hpass).
  rewrite (parse_next_result_array self1 _ Hraw).
  cbn [flat_map]. rewrite <- app_assoc.
  rewrite (loop_item self1 array_locals new_builder o1 _ _
                     eq_refl eq_refl eq_refl).
  cbn [next_value chain_after]. rewrite chain_next_parsing.
  cbn [parse_next pc vars pending ending].
  destruct others as [ | o2 others ].
  - cbn [flat_map app].
    rewrite loop_array_tail; [ reflexivity | reflexivity | discriminate ].
  - cbn [forallb] in Hobjs. apply andb_true_iff in Hobjs.
    destruct Hobjs as [Ho2 _]. destruct o2; try discriminate.
    cbn [flat_map]. rewrite <- app_assoc.
    erewrite loop_item; [ reflexivity | reflexivity | reflexivity | reflexivity ].
Qed.

Lemma one_on_result_array_witness :
  let single :=
    mkHTTPResponse 200 "GET"
      (document (JObject [("result", JArray [JObject [("n", JInteger 1)]])])) in
  let double :=
    mkHTTPResponse 200 "GET"
      (document (JObject [("result", JArray [JObject [("n", JInteger 1)];
                                             JObject [("n", JInteger 2)]])])) in
  snd (one (__init__ single false 1024)) = Ok (PDict [("n", PInt 1)])
  /\ snd (one (__init__ double false 1024))
     = Err (MultipleResults "Expected single-record result, got multiple").
Proof.
  intros single double. split.
  - apply (one_on_result_array [("n", JInteger 1)] [] single false 1024);
      reflexivity.
  - apply (one_on_result_array [("n", JInteger 1)]
                               [JObject [("n", JInteger 2)]] double false 1024);
      reflexivity.
Defined.

(* ================================================================= *)
(** ** Documents without a matching root key *)

Lemma dotted_unmatched (pe : ParseEvent) :
  has_dot (fst pe) = true -> unmatched pe = true.
Proof.
  destruct pe as [prefix ev]. unfold unmatched. cbn [fst snd]. intros H.
  not_this_prefix prefix "error". not_this_prefix prefix "result".
  reflexivity.
Qed.

Lemma unmatched_prefix (prefix : string) (ev : event) :
  ((prefix =? "error")%string && is_start_map ev = false) ->
  ((prefix =? "result")%string && (is_start_map ev || is_start_array ev)
   = false) ->
  unmatched (prefix, ev) = true.
Proof. unfold unmatched. cbn [fst snd]. intros -> ->. reflexivity. Qed.

(** Below a root key every prefix has a dot. *)
Lemma events_below_root_key (k k' : string) (j : json) :
  Forall (fun pe => unmatched pe = true) (events_at ([k] ++ [k']) j).
Proof.
  assert (H : Forall (fun pe : ParseEvent => has_dot (fst pe) = true)
                     (events_at ([k] ++ [k']) j)).
  { apply (events_at_prefixes (fun s => has_dot s = true)).
    - intros s k0 _. apply has_dot_append.
    - discriminate.
    - rewrite join_path_snoc by discriminate. apply has_dot_append. }
  revert H. apply Forall_impl. intros pe. apply dotted_unmatched.
Qed.

(** A member of the root object that is neither a [result] object or
    array nor an [error] object matches nothing. *)
Lemma unmatched_member (k : string) (j : json) :
  root_match (k, j) = false ->
  Forall (fun pe => unmatched pe = true)
         (("", map_key k) :: events_at [k] j).
Proof.
  unfold root_match. cbn [fst snd]. intros Hk.
  constructor; [ reflexivity | ].
  change (join_path [k]) with k.
  destruct j as [ | b | n | m e | s | items | members ]; cbn [events_at];
    change (join_path [k]) with k.
  1-5: (constructor; [ | constructor ];
        apply unmatched_prefix; apply andb_false_r).
  - constructor; [ apply unmatched_prefix;
                   [ apply andb_false_r | rewrite Hk; reflexivity ] | ].
    apply Forall_app. split.
    + apply Forall_flat_map, Forall_forall. intros j _.
      apply events_below_root_key.
    + constructor; [ | constructor ].
      apply unmatched_prefix; apply andb_false_r.
  - apply orb_false_iff in Hk. destruct Hk as [He Hr].
    constructor; [ apply unmatched_prefix; [ rewrite He | rewrite Hr ];
                   reflexivity | ].
    apply Forall_app. split.
    + apply Forall_flat_map, Forall_forall. intros [k' j] _.
      constructor.
      * apply unmatched_prefix; apply andb_false_r.
      * apply events_below_root_key.
    + constructor; [ | constructor ].
      apply unmatched_prefix; apply andb_false_r.
Qed.

Lemma unmatched_members (members : list (string * json)) :
  existsb root_match members = false ->
  Forall (fun pe => unmatched pe = true) (member_events [] members).
Proof.
  intros H. unfold member_events.
  apply Forall_flat_map, Forall_forall. intros [k j] Hin.
  cbn [fst snd]. apply unmatched_member.
  destruct (root_match (k, j)) eqn:E; [ | reflexivity ].
  rewrite <- H. symmetry. apply existsb_exists. exists (k, j). auto.
Qed.

(** No event of a document whose root matches nothing is matched. *)
Lemma unmatched_document (j : json) :
  root_matches j = false ->
  Forall (fun pe => unmatched pe = true) (events_at [] j).
Proof.
  intros H.
  destruct j as [ | b | n | m e | s | items | members ]; cbn [events_at];
    change (join_path []) with "".
  1-5: (constructor; [ reflexivity | constructor ]).
  - constructor; [ reflexivity | ].
    apply Forall_app. split; [ | constructor; [ reflexivity | constructor ] ].
    apply Forall_flat_map, Forall_forall. intros j _.
    pose proof (unmatched_member "item" j) as Hj.
    assert (Hitem : root_match ("item", j) = false)
      by (destruct j; reflexivity).
    specialize (Hj Hitem). inversion Hj; assumption.
  - constructor; [ reflexivity | ].
    apply Forall_app. split; [ | constructor; [ reflexivity | constructor ] ].
    apply (unmatched_members members H).
Qed.

Lemma parse_next_unmatched (self : Response) (j : json) :
  root_matches j = false ->
  raw (_response self) = document j ->
  parse_next self (_parse_response self)
  = (self, Raise missing_result, finished initial_locals).
Proof.
  intros Hroot Hraw. unfold parse_next, _parse_response. cbn [pc].
  rewrite Hraw. unfold document. cbn [stream_events stream_ending].
  rewrite <- (app_nil_r (events_at [] j)).
  rewrite loop_unmatched;
    [ reflexivity | reflexivity | apply unmatched_document, Hroot ].
Qed.

Lemma set_raise_on_empty_same (self : Response) :
  set_raise_on_empty self (_raise_on_empty self) = self.
Proof. destruct self; reflexivity. Qed.

(** If the first resumption of the parse raises [e], whatever the
    raise-on-empty flag, then the iteration of [all()] and the four
    accessors all fail with [e], provided [e] is not [NoResults]. *)
Lemma failing_parse_fails_every_accessor (self : Response) (e : exn) :
  gate_passes (_response self) = true ->
  (forall flag, exists self' g',
      parse_next (set_raise_on_empty self flag)
                 (_parse_response (set_raise_on_empty self flag))
      = (self', Raise e, g')) ->
  (forall msg, e <> NoResults msg) ->
  e <> StopIteration ->
  every_accessor_fails self e.
Proof.
  intros Hpass Hparse Hno Hstop.
  assert (Hfirst : snd (first self) = Err e).
  { unfold first.
    rewrite (chain_next_passes (set_raise_on_empty self true) Hpass).
    destruct (Hparse true) as (self' & g' & ->). reflexivity. }
  assert (Hone : snd (one self) = Err e).
  { unfold one.
    rewrite (chain_next_passes (set_raise_on_empty self true) Hpass).
    destruct (Hparse true) as (self' & g' & ->). reflexivity. }
  assert (Hor : forall r : Response * result pyval,
             snd r = Err e -> snd (or_none r) = Err e).
  { intros [s r] Hr. cbn [snd] in Hr. subst r. unfold or_none.
    destruct e; try reflexivity. exfalso. eapply Hno. reflexivity. }
  repeat split.
  - intros fuel. cbn [consume].
    rewrite (chain_next_passes self Hpass).
    destruct (Hparse (_raise_on_empty self)) as (self' & g' & H).
    rewrite set_raise_on_empty_same in H. rewrite H. eauto.
  - exact Hfirst.
  - apply Hor, Hfirst.
  - exact Hone.
  - apply Hor, Hone.
Qed.

(** C8.  For every document whose root holds neither a [result] object
    or array nor an [error] object, for instance [{"unexpected": 1}],
    on a [Response] whose gate passes, the iteration of [all()] and each
    of [first], [first_or_none], [one] and [one_or_none] fail with
    [MissingResult]. *)
Theorem unmatched_root_is_missing_result (j : json) (self : Response) :
  root_matches j = false ->
  gate_passes (_response self) = true ->
  raw (_response self) = document j ->
  every_accessor_fails self missing_result.
Proof.
  intros Hroot Hpass Hraw.
  apply failing_parse_fails_every_accessor;
    [ exact Hpass | | discriminate | discriminate ].
  intros flag. eexists. eexists.
  apply (parse_next_unmatched (set_raise_on_empty self flag) j Hroot Hraw).
Qed.

Lemma unmatched_root_is_missing_result_witness :
  every_accessor_fails
    (__init__ (mkHTTPResponse 200 "GET"
                 (document (JObject [("unexpected", JInteger 1)])))
              false 1024)
    missing_result.
Proof.
  apply (unmatched_root_is_missing_result
           (JObject [("unexpected", JInteger 1)])); reflexivity.
Defined.

(* ================================================================= *)
(** ** An error object *)

(** Before anything else was matched, the object under [error] is
    matched and fed to a new builder, and [ResponseError] is raised with
    the built value at its closing event; what follows is never read. *)
Lemma loop_error_object (self : Response) (l : locals)
      (members : list (string * json)) (rest : list ParseEvent)
      (fin : stream_end) :
  routed l = None ->
  exists g',
    loop self l (events_at ["error"] (JObject members) ++ rest) fin
    = (self, Raise (ResponseError (loads (JObject members))), g').
Proof.
  intros Hr.
  assert (Hflags : has_result_many l = false /\ has_result_single l = false).
  { unfold routed in Hr.
    destruct (has_result_many l); [ discriminate | ].
    destruct (has_result_single l); [ discriminate | ]. auto. }
  destruct Hflags as [Hmany Hsingle].
  destruct (object_region ["error"] members new_builder eq_refl)
    as (b2 & Hfed & Hval & Hend).
  cbn [events_at]. fold (member_events ["error"] members).
  change (join_path ["error"]) with "error".
  rewrite <- app_comm_cons, <- app_assoc.
  set (b1 := mkBuilder (Some (PDict [])) [map_setter []; initial_set] None).
  rewrite (loop_cons_next self self l (mkLocals false false true (Some b1))).
  2:{ unfold dispatch.
      cbn [classify String.eqb Ascii.eqb Bool.eqb andb orb is_start_map
           is_start_array has_result_many has_result_single has_error].
      rewrite Hmany, Hsingle.
      cbn [String.eqb Ascii.eqb Bool.eqb andb is_end_map startswith].
      reflexivity. }
  rewrite (loop_feeds "error" _ fin _ self _ b1 b2);
    [ | unfold routed; reflexivity
      | reflexivity
      | apply (member_events_inside ["error"]); discriminate
      | exact Hfed ].
  cbn [app].
  erewrite loop_cons_raise; [ eexists; reflexivity | ].
  unfold dispatch.
  cbn [classify set_builder String.eqb Ascii.eqb Bool.eqb andb orb
       is_start_map is_start_array has_result_many has_result_single
       has_error is_end_map].
  unfold builder_value, the_builder, set_builder. cbn [builder bind].
  rewrite Hval. reflexivity.
Qed.

Lemma events_root_object (members : list (string * json)) :
  events_at [] (JObject members)
  = ("", start_map) :: member_events [] members ++ [("", end_map)].
Proof. reflexivity. Qed.

Lemma member_events_app (p : list string) (a b : list (string * json)) :
  member_events p (a ++ b) = member_events p a ++ member_events p b.
Proof. apply flat_map_app. Qed.

Lemma member_events_cons (p : list string) (k : string) (j : json)
      (rest : list (string * json)) :
  member_events p ((k, j) :: rest)
  = (join_path p, map_key k)
      :: events_at (p ++ [k]) j ++ member_events p rest.
Proof. reflexivity. Qed.

Lemma document_up_to_error (before after members : list (string * json)) :
  events_at [] (JObject (before ++ ("error", JObject members) :: after))
  = up_to_error before members
      ++ member_events [] after ++ [("", end_map)].
Proof.
  rewrite events_root_object, member_events_app, member_events_cons.
  unfold up_to_error.
  change (join_path []) with "". change ([] ++ ["error"]) with ["error"].
  rewrite <- !app_comm_cons. f_equal.
  rewrite <- !app_assoc. f_equal.
  rewrite <- !app_comm_cons. f_equal.
  rewrite <- !app_assoc. reflexivity.
Qed.

(** The error is raised at the closing event of the [error] object: the
    outcome does not depend on the events after it, nor on the stream
    being well formed after it. *)
Lemma parse_next_error (self : Response)
      (before members : list (string * json)) (rest : list ParseEvent)
      (fin : stream_end) :
  existsb root_match before = false ->
  raw (_response self) = mkStream (up_to_error before members ++ rest) fin ->
  exists g',
    parse_next self (_parse_response self)
    = (self, Raise (ResponseError (loads (JObject members))), g').
Proof.
  intros Hbefore Hraw. unfold parse_next, _parse_response. cbn [pc].
  rewrite Hraw. cbn [stream_events stream_ending]. unfold up_to_error.
  rewrite <- app_comm_cons.
  rewrite (loop_cons_next self self initial_locals initial_locals)
    by reflexivity.
  rewrite <- app_assoc.
  rewrite loop_unmatched;
    [ | reflexivity | apply unmatched_members, Hbefore ].
  rewrite <- app_comm_cons.
  rewrite (loop_cons_next self self initial_locals initial_locals)
    by reflexivity.
  apply loop_error_object. reflexivity.
Qed.

(** X16.  For every document whose root object holds
    an [error] object, with no [result] object or array and no other
    [error] object among the members before it, on a [Response] whose
    gate passes: the parse raises [ResponseError] carrying the value of
    the error object before any record is yielded, whatever the
    raise-on-empty flag, the count and the members after it; the
    iteration of [all()] and each of the four accessors fail with it. *)
Theorem error_object_raises_response_error
        (before after members : list (string * json)) (self : Response) :
  existsb root_match before = false ->
  gate_passes (_response self) = true ->
  raw (_response self)
  = document (JObject (before ++ ("error", JObject members) :: after)) ->
  every_accessor_fails self (ResponseError (loads (JObject members))).
Proof.
  intros Hbefore Hpass Hraw.
  apply failing_parse_fails_every_accessor;
    [ exact Hpass | | discriminate | discriminate ].
  intros flag.
  destruct (parse_next_error (set_raise_on_empty self flag) before members
              (member_events [] after ++ [("", end_map)]) end_of_document
              Hbefore) as [g' Hg'].
  - cbn [set_raise_on_empty _response]. rewrite Hraw. unfold document.
    rewrite document_up_to_error. reflexivity.
  - eauto.
Qed.

Lemma error_object_raises_response_error_witness :
  every_accessor_fails
    (__init__ (mkHTTPResponse 200 "GET"
                 (document
                    (JObject [("error",
                               JObject [("message", JString "m");
                                        ("detail", JString "d")])])))
              false 1024)
    (ResponseError (PDict [("message", PStr "m"); ("detail", PStr "d")])).
Proof.
  apply (error_object_raises_response_error
           [] [] [("message", JString "m"); ("detail", JString "d")]);
    reflexivity.
Defined.

(** The same on any stream that begins like such a document: once the
    [error] object has closed, the events that follow, and whether the
    bytes after it are JSON at all, make no difference. *)
Lemma error_raised_whatever_follows
      (before members : list (string * json)) (rest : list ParseEvent)
      (fin : stream_end) (self : Response) :
  existsb root_match before = false ->
  gate_passes (_response self) = true ->
  raw (_response self) = mkStream (up_to_error before members ++ rest) fin ->
  every_accessor_fails self (ResponseError (loads (JObject members))).
Proof.
  intros Hbefore Hpass Hraw.
  apply failing_parse_fails_every_accessor;
    [ exact Hpass | | discriminate | discriminate ].
  intros flag.
  destruct (parse_next_error (set_raise_on_empty self flag) before members
              rest fin Hbefore Hraw) as [g' Hg'].
  eauto.
Qed.

(** C1.  The claim asks for [ResponseError] whenever the root holds an
    [error] object, also after a [result]; the docstring of
    [_parse_response] promises the same, and lines 60-63 set [has_error]
    whatever was matched before.  The code does not do it: once a
    [result] was matched, the [elif] chain of lines 72-97 never reaches
    the error branch.  In [{"result": [], "error": {...}}] the error
    object is dropped and the pass ends as an empty result (one empty
    record, or [NoResults] with raise-on-empty true); in
    [{"result": [{"n": 1}], "error": {...}}] the record is yielded and
    the pass ends as if there were no error; with the same two members
    in the other order [ResponseError] is raised. *)
Theorem error_after_result_is_dropped :
  let error := JObject [("message", JString "m"); ("detail", JString "d")] in
  let payload := PDict [("message", PStr "m"); ("detail", PStr "d")] in
  let fresh (j : json) (flag : bool) :=
    __init__ (mkHTTPResponse 200 "GET" (document j)) flag 1024 in
  let empty := JObject [("result", JArray []); ("error", error)] in
  let one_record :=
    JObject [("result", JArray [JObject [("n", JInteger 1)]]);
             ("error", error)] in
  let error_first :=
    JObject [("error", error);
             ("result", JArray [JObject [("n", JInteger 1)]])] in
  consume chain_next 3 (fresh empty false) (all (fresh empty false))
  = ([(PDict [], 0)], Exhausted, fresh empty false)
  /\ consume chain_next 3 (fresh empty true) (all (fresh empty true))
     = ([], Failed no_results, fresh empty true)
  /\ consume chain_next 3 (fresh one_record false)
             (all (fresh one_record false))
     = ([(PDict [("n", PInt 1)], 1)], Exhausted,
        set_count (fresh one_record false) 1)
  /\ ~ every_accessor_fails (fresh empty false) (ResponseError payload)
  /\ ~ every_accessor_fails (fresh one_record false) (ResponseError payload)
  /\ consume chain_next 3 (fresh error_first false)
             (all (fresh error_first false))
     = ([], Failed (ResponseError payload), fresh error_first false).
Proof.
  cbv zeta.
  split; [ reflexivity | ].
  split; [ reflexivity | ].
  split; [ reflexivity | ].
  split; [ | split; [ | reflexivity ] ].
  - intros (Hall & _). destruct (Hall 2%nat) as [final H].
    discriminate H.
  - intros (Hall & _). destruct (Hall 2%nat) as [final H].
    discriminate H.
Qed.

(* ================================================================= *)
(** ** Status 404 *)

Lemma gate_next_404 (self : Response) :
  status_code (_response self) = 404 ->
  gate_next self gate_start
  = if _raise_on_empty self
    then (Raise no_results, gate_done)
    else (Yield (a_list [PDict []]), gate_404).
Proof.
  intros H. unfold gate_next, raise_for_status. rewrite H.
  rewrite andb_false_r. reflexivity.
Qed.

Lemma chain_next_404_raising (self : Response) :
  status_code (_response self) = 404 ->
  _raise_on_empty self = true ->
  chain_next self (all self) = (self, Raise no_results, exhausted).
Proof.
  intros H404 Hflag. unfold chain_next, all.
  cbn [inner outer gate_left from_outer].
  rewrite (gate_next_404 self H404), Hflag. reflexivity.
Qed.

Lemma chain_next_404_empty (self : Response) :
  status_code (_response self) = 404 ->
  _raise_on_empty self = false ->
  chain_next self (all self)
  = (self, Yield (PDict []), mkChain gate_404 (Some (list_iterator []))).
Proof.
  intros H404 Hflag. unfold chain_next, all.
  cbn [inner outer gate_left from_outer].
  rewrite (gate_next_404 self H404), Hflag. reflexivity.
Qed.

(** C3, as the code has it.  For every response with status 404,
    whatever its body: with raise-on-empty true, iterating [all()] fails
    with [NoResults] before any record; [first()] and [one()] fail with
    [NoResults], while [first_or_none()] and [one_or_none()] return
    [None]; with raise-on-empty false, the first record [all()] yields is
    the empty dict, and [count] stays as it was. *)
Theorem status_404 (self : Response) :
  status_code (_response self) = 404 ->
  (_raise_on_empty self = true ->
   forall fuel,
     consume chain_next (S fuel) self (all self)
     = ([], Failed no_results, self))
  /\ (let self' := set_raise_on_empty self true in
      first self = (self', Err no_results)
      /\ one self = (self', Err no_results)
      /\ first_or_none self = (self', Ok PNone)
      /\ one_or_none self = (self', Ok PNone))
  /\ (_raise_on_empty self = false ->
      chain_next self (all self)
      = (self, Yield (PDict []), mkChain gate_404 (Some (list_iterator [])))).
Proof.
  intros H404.
  assert (Hforced : chain_next (set_raise_on_empty self true)
                               (all (set_raise_on_empty self true))
                    = (set_raise_on_empty self true, Raise no_results,
                       exhausted))
    by (apply chain_next_404_raising; [ exact H404 | reflexivity ]).
  split; [ | split ].
  - intros Hflag fuel. cbn [consume].
    rewrite (chain_next_404_raising self H404 Hflag). reflexivity.
  - unfold first_or_none, one_or_none, first, one.
    rewrite Hforced. repeat split; reflexivity.
  - apply chain_next_404_empty, H404.
Qed.

Lemma status_404_witness :
  let self := __init__ (mkHTTPResponse 404 "GET" (document JNull)) false 1024 in
  first_or_none self = (set_raise_on_empty self true, Ok PNone)
  /\ chain_next self (all self)
     = (self, Yield (PDict []), mkChain gate_404 (Some (list_iterator []))).
Proof.
  intros self.
  destruct (status_404 self eq_refl) as (_ & (_ & _ & H & _) & Hempty).
  split; [ exact H | exact (Hempty eq_refl) ].
Defined.

(** C3, as stated, fails: with status 404 and raise-on-empty true,
    [first_or_none()] does not fail with [NoResults], it returns [None]. *)
Lemma first_or_none_on_404_returns_none :
  let self := __init__ (mkHTTPResponse 404 "GET" (document JNull)) true 1024 in
  snd (first_or_none self) = Ok PNone
  /\ ~ every_accessor_fails self no_results.
Proof.
  intros self. split.
  - reflexivity.
  - intros (_ & _ & H & _). discriminate H.
Qed.

(** X15.  After the empty record of a 404 answered with raise-on-empty
    false, the gate goes on to line 139: the iteration of [all()]
    continues with the parse of the body. *)
Lemma status_404_goes_on_to_parse (self : Response) (fuel : nat) :
  status_code (_response self) = 404 ->
  _raise_on_empty self = false ->
  consume chain_next (S (S fuel)) self (all self)
  = let '(tr, e, final) :=
      consume parse_next (S fuel) self (_parse_response self) in
    ((PDict [], count self) :: tr, e, final).
Proof.
  intros H404 Hflag.
  change (consume chain_next (S (S fuel)) self (all self))
    with (match chain_next self (all self) with
          | (self', Yield v, st') =>
              let '(tr, e, final) := consume chain_next (S fuel) self' st' in
              ((v, count self') :: tr, e, final)
          | (self', Return, _) => ([], Exhausted, self')
          | (self', Raise e, _) => ([], Failed e, self')
          end).
  rewrite (chain_next_404_empty self H404 Hflag).
  cbn [consume]. unfold chain_next at 1.
  cbn [inner outer iterator_next gate_left from_outer gate_next yield_parse
       iter].
  destruct (parse_next self (_parse_response self)) as [[self' o] g'].
  destruct o as [ v | | e ]; try reflexivity.
  rewrite consume_parsing. reflexivity.
Qed.

(* ================================================================= *)
(** ** The count *)









(* ================================================================= *)
(** ** The accessors and the raise-on-empty flag *)

(** Running the generators writes no attribute but [count]. *)
Lemma dispatch_writes_count (self : Response) (l : locals) (pe : ParseEvent) :
  exists c, fst (dispatch self l pe) = set_count self c.
Proof.
  destruct pe as [prefix ev]. unfold dispatch, finish_record, build.
  repeat match goal with
         | |- context [ if ?c then _ else _ ] => destruct c
         | |- context [ match ?c with Ok _ => _ | Err _ => _ end ] =>
             destruct c
         end;
    cbn [fst];
    first [ exists (count self); symmetry; apply set_count_same; reflexivity
          | eexists; reflexivity ].
Qed.

Lemma loop_writes_count (fin : stream_end) :
  forall evs self l,
  exists c, fst (fst (loop self l evs fin)) = set_count self c.
Proof.
  induction evs as [ | pe evs IH ]; intros self l; cbn [loop].
  - exists (count self). rewrite set_count_same by reflexivity.
    unfold after_loop, missing_check.
    repeat match goal with
           | |- context [ if ?c then _ else _ ] => destruct c
           | |- context [ match ?c with end_of_document => _ | malformed => _ end ] =>
               destruct c
           end; reflexivity.
  - destruct (dispatch_writes_count self (classify l pe) pe) as [c Hc].
    destruct (dispatch self (classify l pe) pe) as [self1 [ l1 | l1 v | e ]];
      cbn [fst] in Hc; subst self1.
    + destruct (IH (set_count self c) l1) as [c' Hc'].
      exists c'. rewrite Hc'. reflexivity.
    + exists c. reflexivity.
    + exists c. reflexivity.
Qed.

Lemma parse_next_writes_count (self : Response) (g : frame) :
  exists c, fst (fst (parse_next self g)) = set_count self c.
Proof.
  unfold parse_next. destruct (pc g).
  - apply loop_writes_count.
  - apply loop_writes_count.
  - exists (count self). rewrite set_count_same by reflexivity.
    unfold missing_check. destruct (negb _); reflexivity.
  - exists (count self). rewrite set_count_same by reflexivity. reflexivity.
Qed.

Lemma iterator_next_writes_count (self : Response) (it : iterator) :
  exists c, fst (fst (iterator_next self it)) = set_count self c.
Proof.
  destruct it as [ [ | x rest ] | g ]; cbn [iterator_next].
  - exists (count self). rewrite set_count_same by reflexivity. reflexivity.
  - exists (count self). rewrite set_count_same by reflexivity. reflexivity.
  - destruct (parse_next_writes_count self g) as [c Hc].
    destruct (parse_next self g) as [[self' o] g']. exists c. exact Hc.
Qed.

Lemma from_outer_writes_count :
  forall n self g,
  exists c, fst (fst (from_outer n self g)) = set_count self c.
Proof.
  induction n as [ | n IH ]; intros self g; cbn [from_outer];
    destruct (gate_next self g) as [[ it | | e ] g'];
    try (exists (count self); rewrite set_count_same by reflexivity;
         reflexivity);
    destruct (iterator_next_writes_count self (iter it)) as [c Hc];
    destruct (iterator_next self (iter it)) as [[self' [ v | | e ]] it'];
    cbn [fst] in Hc; subst self'; try (exists c; reflexivity).
  destruct (IH (set_count self c) g') as [c' Hc'].
  exists c'. rewrite Hc'. reflexivity.
Qed.

Lemma chain_next_writes_count (self : Response) (c : chain) :
  exists n, fst (fst (chain_next self c)) = set_count self n.
Proof.
  unfold chain_next. destruct (inner c) as [ it | ].
  - destruct (iterator_next_writes_count self it) as [n Hn].
    destruct (iterator_next self it) as [[self' [ v | | e ]] it'];
      cbn [fst] in Hn; subst self'; try (exists n; reflexivity).
    destruct (from_outer_writes_count (gate_left (outer c))
                                      (set_count self n) (outer c))
      as [n' Hn'].
    exists n'. rewrite Hn'. reflexivity.
  - apply from_outer_writes_count.
Qed.

Lemma or_none_state (r : Response * result pyval) :
  fst (or_none r) = fst r.
Proof.
  destruct r as [self [ v | e ]]; [ reflexivity | ].
  destruct e; reflexivity.
Qed.

Lemma first_state (self : Response) :
  exists n, fst (first self) = set_count (set_raise_on_empty self true) n.
Proof.
  unfold first.
  destruct (chain_next_writes_count (set_raise_on_empty self true)
              (all (set_raise_on_empty self true))) as [n Hn].
  destruct (chain_next _ _) as [[self' o] c']. exists n. exact Hn.
Qed.

Lemma one_state (self : Response) :
  exists n, fst (one self) = set_count (set_raise_on_empty self true) n.
Proof.
  unfold one.
  destruct (chain_next_writes_count (set_raise_on_empty self true)
              (all (set_raise_on_empty self true))) as [n Hn].
  destruct (chain_next _ _) as [[self1 o1] c1]. cbn [fst] in Hn. subst self1.
  destruct (next_value o1) as [ v | e ]; [ | exists n; reflexivity ].
  destruct (chain_next_writes_count
              (set_count (set_raise_on_empty self true) n) c1) as [n' Hn'].
  destruct (chain_next _ c1) as [[self2 o2] c2]. cbn [fst] in Hn'. subst self2.
  exists n'.
  destruct (next_value o2) as [ v' | e ]; [ reflexivity | ].
  destruct e; reflexivity.
Qed.

(** After any of the four accessors the object is the one it would be
    had it been configured with raise-on-empty true, up to [count]. *)
Lemma call_state (a : accessor) (self : Response) :
  exists n, fst (call a self) = set_count (set_raise_on_empty self true) n.
Proof.
  destruct a; cbn [call]; unfold first_or_none, one_or_none;
    rewrite ?or_none_state; first [ apply first_state | apply one_state ].
Qed.

Lemma call_sets_flag (a : accessor) (self : Response) :
  _raise_on_empty (fst (call a self)) = true.
Proof. destruct (call_state a self) as [n ->]. reflexivity. Qed.

Lemma calls_keep_flag (later : list accessor) :
  forall self,
    _raise_on_empty self = true ->
    _raise_on_empty (fold_left (fun s b => fst (call b s)) later self) = true.
Proof.
  induction later as [ | b later IH ]; intros self H; cbn [fold_left].
  - exact H.
  - apply IH, call_sets_flag.
Qed.

(** C9.  Each of [first], [first_or_none], [one] and [one_or_none]
    leaves the raise-on-empty flag of the object set, also when it was
    constructed with the flag false; the flag stays set through any
    further accessor calls; the call itself and every later step of an
    [all()] iterator on the same object, whatever body it finds, are
    those of an object configured with raise-on-empty true. *)
Theorem accessors_force_raise_on_empty
        (a : accessor) (response : HTTPResponse) (chunk_size : Z) :
  let self := __init__ response false chunk_size in
  let self' := fst (call a self) in
  _raise_on_empty self' = true
  /\ call a self = call a (__init__ response true chunk_size)
  /\ (forall later : list accessor,
        _raise_on_empty (fold_left (fun s b => fst (call b s)) later self')
        = true)
  /\ (forall (body : stream) (c : chain),
        chain_next (with_raw self' body) c
        = chain_next (set_raise_on_empty (with_raw self' body) true) c).
Proof.
  intros self self'.
  assert (Hflag : _raise_on_empty self' = true) by apply call_sets_flag.
  split; [ | split; [ | split ] ].
  - exact Hflag.
  - destruct a; reflexivity.
  - intros later. apply calls_keep_flag, Hflag.
  - intros body c. f_equal.
    unfold with_raw, set_raise_on_empty. cbn [_raise_on_empty _response
                                              _chunk_size _count].
    rewrite Hflag. reflexivity.
Qed.

(** The effect seen from outside: an object constructed with the flag
    false answers an empty result with one empty record; once
    [first_or_none()] has been called on it, the same body makes
    [all()] fail with [NoResults]. *)
Lemma first_or_none_changes_all :
  let body := document (JObject [("result", JArray [])]) in
  let self := __init__ (mkHTTPResponse 200 "GET" body) false 1024 in
  let self' := fst (first_or_none self) in
  consume chain_next 2 self (all self) = ([(PDict [], 0)], Exhausted, self)
  /\ snd (first_or_none self) = Ok PNone
  /\ consume chain_next 2 self' (all self')
     = ([], Failed no_results, self').
Proof. cbv zeta. split; [ | split ]; reflexivity. Qed.

(* ================================================================= *)
(** ** set_token *)

Lemma subset_spec (a b : list string) :
  subset a b = true <-> (forall k, In k a -> In k b).
Proof.
  unfold subset. rewrite forallb_forall. split; intros H k Hk.
  - apply H in Hk. apply existsb_exists in Hk.
    destruct Hk as (k' & Hin & Heq). apply String.eqb_eq in Heq.
    subst k'. exact Hin.
  - apply existsb_exists. exists k. split; [ apply H, Hk | ].
    apply String.eqb_refl.
Qed.




(* ================================================================= *)
(** ** Arrays with elements that are not objects *)

Lemma item_event_routed (self : Response) (l : locals) (pe : ParseEvent) :
  has_result_many l = true ->
  item_event pe = true ->
  classify l pe = l /\ dispatch self l pe = (self, build l (snd pe)).
Proof.
  destruct pe as [prefix ev].
  unfold item_event, classify, dispatch. cbn [fst snd].
  intros Hmany Hin.
  apply andb_true_iff in Hin. destruct Hin as [Hstart Hclose].
  apply negb_true_iff in Hclose.
  rewrite Hmany, Hclose, Hstart.
  not_this_prefix prefix "error". not_this_prefix prefix "result".
  split; reflexivity.
Qed.

Lemma loop_feeds_items (rest : list ParseEvent) (fin : stream_end) :
  forall evs self l b b',
    has_result_many l = true ->
    builder l = Some b ->
    Forall (fun pe => item_event pe = true) evs ->
    builder_events b (map snd evs) = Ok b' ->
    loop self l (evs ++ rest) fin = loop self (set_builder l b') rest fin.
Proof.
  induction evs as [ | pe evs IH ]; intros self l b b' Hmany Hb Hin Hfed.
  - simpl in Hfed. injection Hfed as <-.
    rewrite (set_builder_same _ _ Hb). reflexivity.
  - inversion Hin as [ | pe0 evs0 Hpe Hevs ]; subst.
    cbn [map builder_events] in Hfed.
    destruct (builder_event b (snd pe)) as [ b1 | ] eqn:E1;
      [ | discriminate ].
    cbn [bind] in Hfed.
    destruct (item_event_routed self l pe Hmany Hpe) as [Hc Hd].
    change ((pe :: evs) ++ rest) with (pe :: (evs ++ rest)).
    rewrite (loop_cons_next self self l (set_builder l b1)).
    2:{ rewrite Hc, Hd, (build_feeds l b b1 _ Hb E1). reflexivity. }
    rewrite (IH self (set_builder l b1) b1 b'); auto.
Qed.

Lemma below_item_event (pe : ParseEvent) :
  below "result.item" (fst pe) -> item_event pe = true.
Proof.
  intros H. unfold item_event.
  rewrite (proj1 H), (below_neq _ _ H). reflexivity.
Qed.

(** Every event of an element that is not an object goes to the builder
    and ends no record. *)
Lemma value_item_events (j : json) :
  is_object j = false ->
  Forall (fun pe => item_event pe = true) (events_at ["result"; "item"] j).
Proof.
  intros Hj.
  destruct j as [ | b | n | m e | s | items | members ];
    try discriminate; cbn [events_at];
    change (join_path ["result"; "item"]) with "result.item".
  1-5: (constructor; [ reflexivity | constructor ]).
  constructor; [ reflexivity | ].
  apply Forall_app. split; [ | constructor; [ reflexivity | constructor ] ].
  apply Forall_flat_map, Forall_forall. intros j _.
  assert (H : Forall (fun pe : ParseEvent => below "result.item" (fst pe))
                     (events_at (["result"; "item"] ++ ["item"]) j)).
  { apply (events_at_prefixes (below "result.item")).
    - intros s k. apply below_snoc.
    - discriminate.
    - split; [ reflexivity | cbn; lia ]. }
  revert H. apply Forall_impl. intros pe. apply below_item_event.
Qed.

(** An element that is not an object is built and dropped: the loop goes
    on with the builder at rest. *)
Lemma loop_skips_value (self : Response) (l : locals) (b : ObjectBuilder)
      (j : json) (rest : list ParseEvent) (fin : stream_end) :
  has_result_many l = true ->
  builder l = Some b ->
  containers b = [initial_set] ->
  is_object j = false ->
  loop self l (events_at ["result"; "item"] j ++ rest) fin
  = loop self
         (set_builder l (mkBuilder (Some (loads j)) [initial_set]
                                   (last_key j (key b))))
         rest fin.
Proof.
  intros Hmany Hb Hcs Hj.
  apply (loop_feeds_items rest fin _ self l b); auto.
  - apply value_item_events, Hj.
  - rewrite (builder_builds j ["result"; "item"] b initial_set [] PNone PNone
                            Hcs eq_refl).
    unfold fed. cbn [store bind]. rewrite Hcs. reflexivity.
Qed.

(** Iterating the parse over the elements of the array, whatever they
    are, up to an end that does not yield. *)
Lemma consume_items (tail : list ParseEvent) (fin : stream_end)
      (last : outcome pyval) :
  (forall v, last <> Yield v) ->
  forall items fuel self g l b total,
    parse_next self g
    = loop self l
           (flat_map (events_at ["result"; "item"]) items ++ tail) fin ->
    has_result_many l = true ->
    builder l = Some b ->
    containers b = [initial_set] ->
    total = count self + Z.of_nat (List.length (objects items)) ->
    (forall l', has_result_many l' = true ->
                exists g', loop (set_count self total) l' tail fin
                           = (set_count self total, last, g')) ->
    (List.length (objects items) < fuel)%nat ->
    consume parse_next fuel self g
    = (numbered (count self) (map loads (objects items)),
       stop_of last, set_count self total).
Proof.
  intros Hlast.
  induction items as [ | j items IH ];
    intros fuel self g l b total Hnext Hmany Hb Hcs Htotal Hend Hfuel.
  - destruct fuel as [ | fuel ]; [ cbn in Hfuel; lia | ].
    cbn [objects filter List.length] in Htotal.
    rewrite Z.add_0_r in Htotal. subst total.
    rewrite (set_count_same self) in * by reflexivity.
    cbn [consume]. rewrite Hnext. cbn [flat_map app].
    destruct (Hend l Hmany) as [g' ->].
    destruct last; try reflexivity. exfalso. eapply Hlast. reflexivity.
  - cbn [flat_map] in Hnext. rewrite <- app_assoc in Hnext.
    destruct j as [ | b0 | n | m e | s | elems | members ].
    1-6: (match type of Hnext with
          | context [ events_at _ ?j ++ _ ] =>
              rewrite (loop_skips_value self l b j _ fin Hmany Hb Hcs eq_refl)
                in Hnext
          end;
          apply (IH fuel self g _ _ total Hnext Hmany eq_refl eq_refl
                    Htotal Hend Hfuel)).
    cbn [objects filter is_object List.length map] in *.
    destruct fuel as [ | fuel ]; [ lia | ].
    cbn [consume]. rewrite Hnext.
    rewrite (loop_item self l b members _ _ Hmany Hb Hcs).
    set (b' := mkBuilder (Some (loads (JObject members))) [initial_set]
                         (last_key (JObject members) (key b))).
    rewrite (IH fuel (set_count self (count self + 1))
                (mkFrame pc_loop (set_builder l b') _ fin)
                (set_builder l b') b' total eq_refl Hmany eq_refl eq_refl).
    + reflexivity.
    + unfold count, set_count, objects in *. cbn [_count]. lia.
    + exact Hend.
    + unfold objects. lia.
Qed.

Lemma parse_next_array_head (self : Response) (rest : list ParseEvent)
      (fin : stream_end) :
  raw (_response self) = mkStream (array_head ++ rest) fin ->
  parse_next self (_parse_response self) = loop self array_locals rest fin.
Proof.
  intros Hraw. unfold parse_next, _parse_response. cbn [pc].
  rewrite Hraw. cbn [stream_events stream_ending array_head app].
  rewrite (loop_cons_next self self initial_locals initial_locals)
    by reflexivity.
  rewrite (loop_cons_next self self initial_locals initial_locals)
    by reflexivity.
  rewrite (loop_cons_next self self initial_locals array_locals)
    by reflexivity.
  reflexivity.
Qed.

Lemma document_array_head (items : list json) :
  document (JObject [("result", JArray items)])
  = mkStream (array_head
                ++ flat_map (events_at ["result"; "item"]) items ++ array_tail)
             end_of_document.
Proof. unfold document. rewrite events_result_array. reflexivity. Qed.

(** Up to the next object of the array: the elements before it are
    dropped and it is yielded; if there is none, the loop reaches what
    follows the elements. *)
Lemma loop_next_object (rest : list ParseEvent) (fin : stream_end) :
  forall items self l b,
    has_result_many l = true ->
    builder l = Some b ->
    containers b = [initial_set] ->
    match objects items with
    | [] =>
        exists b',
          containers b' = [initial_set]
          /\ loop self l
                  (flat_map (events_at ["result"; "item"]) items ++ rest) fin
             = loop self (set_builder l b') rest fin
    | o :: _ =>
        exists b' items',
          containers b' = [initial_set]
          /\ objects items = o :: objects items'
          /\ loop self l
                  (flat_map (events_at ["result"; "item"]) items ++ rest) fin
             = (set_count self (count self + 1), Yield (loads o),
                mkFrame pc_loop (set_builder l b')
                        (flat_map (events_at ["result"; "item"]) items'
                                  ++ rest)
                        fin)
    end.
Proof.
  induction items as [ | j items IH ]; intros self l b Hmany Hb Hcs.
  - exists b. split; [ exact Hcs | ].
    rewrite (set_builder_same _ _ Hb). reflexivity.
  - cbn [flat_map]. rewrite <- app_assoc.
    destruct (is_object j) eqn:Hj.
    + destruct j; try discriminate.
      cbn [objects filter is_object].
      eexists. exists items. split; [ | split; [ reflexivity | ] ].
      2: apply (loop_item self l b members _ _ Hmany Hb Hcs).
      reflexivity.
    + rewrite (loop_skips_value self l b j _ fin Hmany Hb Hcs Hj).
      set (b1 := mkBuilder (Some (loads j)) [initial_set]
                           (last_key j (key b))).
      specialize (IH self (set_builder l b1) b1 Hmany eq_refl eq_refl).
      unfold objects in *. cbn [filter]. rewrite Hj.
      destruct (filter is_object items) as [ | o os ].
      * destruct IH as (b' & Hb' & ->). exists b'. auto.
      * destruct IH as (b' & items' & Hb' & Hobjs & ->).
        exists b', items'. auto.
Qed.

(* ================================================================= *)
(** ** What [all()] yields from a result array *)

(** X1.  For a document [{"result": [...]}] with any elements, on a
    [Response] whose gate passes and whose [count] will not end at zero,
    iterating [all()] yields exactly the elements that are objects, in
    document order, and drops the others; [count] goes up by one with
    each of them from the value it had. *)
Theorem all_yields_the_objects_of_the_array
        (items : list json) (self : Response) (fuel : nat) :
  gate_passes (_response self) = true ->
  raw (_response self) = document (JObject [("result", JArray items)]) ->
  count self + Z.of_nat (List.length (objects items)) <> 0 ->
  (List.length (objects items) < fuel)%nat ->
  consume chain_next fuel self (all self)
  = (numbered (count self) (map loads (objects items)), Exhausted,
     set_count self (count self + Z.of_nat (List.length (objects items)))).
Proof.
  intros Hpass Hraw Hcount Hfuel.
  rewrite consume_all_passes by exact Hpass.
  rewrite document_array_head in Hraw.
  apply (consume_items array_tail end_of_document Return
           ltac:(discriminate) items fuel self _ array_locals new_builder);
    auto.
  - apply parse_next_array_head, Hraw.
  - intros l' Hmany. eexists.
    apply loop_array_tail; [ exact Hmany | exact Hcount ].
Qed.

Lemma all_yields_the_objects_of_the_array_witness :
  let body :=
    document (JObject [("result",
                        JArray [JInteger 7; JObject [("n", JInteger 1)];
                                JArray [JObject [("x", JNull)]];
                                JObject [("n", JInteger 2)]])]) in
  let self := set_count (__init__ (mkHTTPResponse 200 "GET" body) true 1024) 5
  in
  consume chain_next 3 self (all self)
  = ([(PDict [("n", PInt 1)], 6); (PDict [("n", PInt 2)], 7)],
     Exhausted, set_count self 7).
Proof.
  intros body self.
  apply (all_yields_the_objects_of_the_array
           [JInteger 7; JObject [("n", JInteger 1)];
            JArray [JObject [("x", JNull)]]; JObject [("n", JInteger 2)]]
           self 3);
    [ reflexivity | reflexivity | discriminate | simpl; lia ].
Defined.

(** X2.  When the tokenizer fails after some elements of the array, the
    records built before the failure have already been yielded, and
    counted, when the error of the tokenizer comes out. *)
Theorem records_before_a_malformed_tail
        (items : list json) (self : Response) (fuel : nat) :
  gate_passes (_response self) = true ->
  raw (_response self)
  = mkStream (array_head ++ flat_map (events_at ["result"; "item"]) items)
             malformed ->
  (List.length (objects items) < fuel)%nat ->
  consume chain_next fuel self (all self)
  = (numbered (count self) (map loads (objects items)), Failed JSONError,
     set_count self (count self + Z.of_nat (List.length (objects items)))).
Proof.
  intros Hpass Hraw Hfuel.
  rewrite consume_all_passes by exact Hpass.
  rewrite <- (app_nil_r (flat_map _ items)) in Hraw.
  apply (consume_items [] malformed (Raise JSONError)
           ltac:(discriminate) items fuel self _ array_locals new_builder);
    auto.
  - apply parse_next_array_head, Hraw.
  - intros l' _. eexists. reflexivity.
Qed.

Lemma records_before_a_malformed_tail_witness :
  let body :=
    mkStream (array_head
                ++ flat_map (events_at ["result"; "item"])
                            [JObject [("n", JInteger 1)]])
             malformed in
  let self := __init__ (mkHTTPResponse 200 "GET" body) false 1024 in
  consume chain_next 2 self (all self)
  = ([(PDict [("n", PInt 1)], 1)], Failed JSONError, set_count self 1).
Proof.
  intros body self.
  apply (records_before_a_malformed_tail [JObject [("n", JInteger 1)]] self 2);
    [ reflexivity | reflexivity | simpl; lia ].
Defined.

(* ================================================================= *)
(** ** Arrays without objects, and the accessors on arrays *)

(** The first resumption on an array without objects runs to the end of
    the loop. *)
Lemma parse_next_no_objects (items : list json) (self : Response) :
  objects items = [] ->
  raw (_response self) = document (JObject [("result", JArray items)]) ->
  exists l,
    has_result_many l = true
    /\ parse_next self (_parse_response self) = after_loop self l.
Proof.
  intros Hnone Hraw. rewrite document_array_head in Hraw.
  rewrite (parse_next_array_head self _ _ Hraw).
  pose proof (loop_next_object array_tail end_of_document items self
                array_locals new_builder eq_refl eq_refl eq_refl) as H.
  rewrite Hnone in H. destruct H as (b' & _ & ->).
  exists (set_builder array_locals b'). split; [ reflexivity | ].
  unfold array_tail.
  rewrite (loop_cons_next self self _ (set_builder array_locals b'))
    by reflexivity.
  rewrite (loop_cons_next self self _ (set_builder array_locals b'))
    by reflexivity.
  reflexivity.
Qed.

Lemma after_loop_empty (self : Response) (l : locals) :
  has_result_many l = true ->
  count self = 0 ->
  after_loop self l
  = if _raise_on_empty self
    then (self, Raise no_results, finished l)
    else (self, Yield (PDict []), mkFrame pc_empty l [] end_of_document).
Proof.
  intros Hmany Hcount. unfold after_loop.
  rewrite Hmany, Hcount, orb_true_r. reflexivity.
Qed.

Lemma after_loop_counted (self : Response) (l : locals) :
  has_result_many l = true ->
  count self <> 0 ->
  after_loop self l = (self, Return, finished l).
Proof.
  intros Hmany Hcount. unfold after_loop, missing_check.
  apply Z.eqb_neq in Hcount.
  rewrite Hmany, Hcount, orb_true_r. reflexivity.
Qed.

(** X3.  A result array without a single object (empty, or holding only
    scalars and arrays) is an empty result.  On a [Response] with
    [count] at zero whose gate passes: with raise-on-empty false
    [all()] yields one empty dict and ends, with raise-on-empty true it
    fails with [NoResults]; [first()] and [one()] fail with [NoResults]
    and [first_or_none()] and [one_or_none()] return [None], whatever
    flag the object was constructed with. *)
Theorem array_without_objects_is_empty
        (items : list json) (self : Response) (fuel : nat) :
  objects items = [] ->
  gate_passes (_response self) = true ->
  raw (_response self) = document (JObject [("result", JArray items)]) ->
  count self = 0 ->
  consume chain_next (S (S fuel)) self (all self)
  = (if _raise_on_empty self
     then ([], Failed no_results, self)
     else ([(PDict [], 0)], Exhausted, self))
  /\ (let self' := set_raise_on_empty self true in
      first self = (self', Err no_results)
      /\ one self = (self', Err no_results)
      /\ first_or_none self = (self', Ok PNone)
      /\ one_or_none self = (self', Ok PNone)).
Proof.
  intros Hnone Hpass Hraw Hcount. split.
  - rewrite consume_all_passes by exact Hpass.
    destruct (parse_next_no_objects items self Hnone Hraw) as (l & Hmany & Hl).
    cbn [consume]. rewrite Hl, (after_loop_empty self l Hmany Hcount).
    destruct (_raise_on_empty self); [ reflexivity | ].
    cbn [parse_next pc vars]. unfold missing_check.
    rewrite Hmany, orb_true_r, Hcount. reflexivity.
  - intros self'.
    destruct (parse_next_no_objects items self' Hnone Hraw)
      as (l & Hmany & Hl).
    assert (Hc : chain_next self' (all self')
                 = (self', Raise no_results,
                    chain_after (Raise no_results) (finished l))).
    { rewrite (chain_next_passes self' Hpass), Hl.
      rewrite (after_loop_empty self' l Hmany Hcount). reflexivity. }
    unfold first_or_none, one_or_none, first, one.
    fold self'. rewrite Hc.
    split; [ | split; [ | split ] ]; reflexivity.
Qed.

Lemma array_without_objects_is_empty_witness :
  let body :=
    document (JObject [("result", JArray [JInteger 1; JArray [JNull]])]) in
  let self := __init__ (mkHTTPResponse 200 "GET" body) false 1024 in
  consume chain_next 2 self (all self) = ([(PDict [], 0)], Exhausted, self)
  /\ first_or_none self = (set_raise_on_empty self true, Ok PNone).
Proof.
  intros body self.
  destruct (array_without_objects_is_empty
              [JInteger 1; JArray [JNull]] self 0
              eq_refl eq_refl eq_refl eq_refl) as (Hall & _ & _ & Hnone & _).
  split; [ exact Hall | exact Hnone ].
Defined.

(** X4.  [count] is never reset.  On a [Response] whose [count] is
    already above zero (after an earlier pass, or set by the caller) an
    array without objects is not seen as empty: whatever the flag,
    [all()] yields nothing and ends without [NoResults], and [first()]
    and [one()] fail with the [StopIteration] of the exhausted
    iterator, which [first_or_none()] and [one_or_none()] let through. *)
Theorem counted_response_hides_an_empty_result
        (items : list json) (self : Response) (fuel : nat) :
  objects items = [] ->
  gate_passes (_response self) = true ->
  raw (_response self) = document (JObject [("result", JArray items)]) ->
  0 < count self ->
  consume chain_next (S fuel) self (all self) = ([], Exhausted, self)
  /\ (let self' := set_raise_on_empty self true in
      first self = (self', Err StopIteration)
      /\ one self = (self', Err StopIteration)
      /\ first_or_none self = (self', Err StopIteration)
      /\ one_or_none self = (self', Err StopIteration)).
Proof.
  intros Hnone Hpass Hraw Hcount. split.
  - rewrite consume_all_passes by exact Hpass.
    destruct (parse_next_no_objects items self Hnone Hraw) as (l & Hmany & Hl).
    cbn [consume]. rewrite Hl, (after_loop_counted self l Hmany) by lia.
    reflexivity.
  - intros self'.
    destruct (parse_next_no_objects items self' Hnone Hraw)
      as (l & Hmany & Hl).
    assert (Hc : chain_next self' (all self')
                 = (self', Return, exhausted)).
    { rewrite (chain_next_passes self' Hpass), Hl.
      rewrite (after_loop_counted self' l Hmany)
        by (unfold self', count, set_raise_on_empty in *; cbn [_count]; lia).
      reflexivity. }
    unfold first_or_none, one_or_none, first, one.
    fold self'. rewrite Hc.
    split; [ | split; [ | split ] ]; reflexivity.
Qed.

Lemma counted_response_hides_an_empty_result_witness :
  let first_body :=
    document (JObject [("result", JArray [JObject [("n", JInteger 1)]])]) in
  let fresh := __init__ (mkHTTPResponse 200 "GET" first_body) true 1024 in
  let used := snd (consume chain_next 2 fresh (all fresh)) in
  let self := with_raw used (document (JObject [("result", JArray [])])) in
  count self = 1
  /\ consume chain_next 1 self (all self) = ([], Exhausted, self)
  /\ first self = (set_raise_on_empty self true, Err StopIteration).
Proof.
  intros first_body fresh used self.
  split; [ reflexivity | ].
  destruct (counted_response_hides_an_empty_result
              [] self 0 eq_refl eq_refl eq_refl eq_refl)
    as (Hall & Hfirst & _).
  split; [ exact Hall | exact Hfirst ].
Defined.

(** X5.  [first()] stops at the first object of the array: on a stream
    that opens a [result] array whose first object comes after elements
    that are not objects, [first()] returns that object with [count] one
    higher, whatever follows it in the stream and whether or not what
    follows is JSON at all. *)
Theorem first_stops_at_the_first_object
        (skipped : list json) (members : list (string * json))
        (rest : list ParseEvent) (fin : stream_end) (self : Response) :
  objects skipped = [] ->
  gate_passes (_response self) = true ->
  raw (_response self)
  = mkStream (array_head
                ++ flat_map (events_at ["result"; "item"])
                            (skipped ++ [JObject members])
                ++ rest)
             fin ->
  first self
  = (set_count (set_raise_on_empty self true) (count self + 1),
     Ok (loads (JObject members))).
Proof.
  intros Hskipped Hpass Hraw. unfold first.
  set (self' := set_raise_on_empty self true).
  rewrite (chain_next_passes self' Hpass).
  rewrite (parse_next_array_head self' _ _ Hraw).
  pose proof (loop_next_object rest fin (skipped ++ [JObject members]) self'
                array_locals new_builder eq_refl eq_refl eq_refl) as H.
  assert (Hobjs : objects (skipped ++ [JObject members]) = [JObject members]).
  { unfold objects in *. rewrite filter_app, Hskipped. reflexivity. }
  rewrite Hobjs in H. destruct H as (b' & items' & _ & _ & ->).
  reflexivity.
Qed.

Lemma first_stops_at_the_first_object_witness :
  let body :=
    mkStream (array_head
                ++ flat_map (events_at ["result"; "item"])
                            ([JString "x"] ++ [JObject [("n", JInteger 1)]])
                ++ [("result.item", start_map)])
             malformed in
  let self := __init__ (mkHTTPResponse 200 "GET" body) false 1024 in
  first self
  = (set_count (set_raise_on_empty self true) 1, Ok (PDict [("n", PInt 1)])).
Proof.
  intros body self.
  apply (first_stops_at_the_first_object
           [JString "x"] [("n", JInteger 1)] [("result.item", start_map)]
           malformed self);
    reflexivity.
Defined.

Lemma array_without_objects_helper (items : list json) (self : Response) :
  objects items = [] ->
  gate_passes (_response self) = true ->
  raw (_response self) = document (JObject [("result", JArray items)]) ->
  count self = 0 ->
  first self = (set_raise_on_empty self true, Err no_results)
  /\ one self = (set_raise_on_empty self true, Err no_results).
Proof.
  intros Hnone Hpass Hraw Hcount.
  set (self' := set_raise_on_empty self true).
  destruct (parse_next_no_objects items self' Hnone Hraw) as (l & Hmany & Hl).
  assert (Hc : chain_next self' (all self')
               = (self', Raise no_results,
                  chain_after (Raise no_results) (finished l))).
  { rewrite (chain_next_passes self' Hpass), Hl.
    rewrite (after_loop_empty self' l Hmany Hcount). reflexivity. }
  unfold first, one. fold self'. rewrite Hc. split; reflexivity.
Qed.

(** X6.  [one()] counts the objects of the array, not its elements: on
    a fresh-count [Response] whose gate passes it fails with [NoResults]
    when the array holds no object, returns the object when it holds
    exactly one, wherever it stands among the other elements, and fails
    with [MultipleResults] when it holds more; [one_or_none()] differs
    only in returning [None] for no object. *)
Theorem one_counts_the_objects
        (items : list json) (self : Response) :
  gate_passes (_response self) = true ->
  raw (_response self) = document (JObject [("result", JArray items)]) ->
  count self = 0 ->
  snd (one self)
  = match objects items with
    | [] => Err no_results
    | [o] => Ok (loads o)
    | _ :: _ :: _ =>
        Err (MultipleResults "Expected single-record result, got multiple")
    end
  /\ snd (one_or_none self)
     = match objects items with
       | [] => Ok PNone
       | [o] => Ok (loads o)
       | _ :: _ :: _ =>
           Err (MultipleResults "Expected single-record result, got multiple")
       end.
Proof.
  intros Hpass Hraw Hcount.
  assert (Hone : snd (one self)
                 = match objects items with
                   | [] => Err no_results
                   | [o] => Ok (loads o)
                   | _ :: _ :: _ =>
                       Err (MultipleResults
                              "Expected single-record result, got multiple")
                   end).
  { destruct (objects items) as [ | o os ] eqn:Hobjs.
    - destruct (array_without_objects_helper items self Hobjs Hpass Hraw Hcount)
        as [_ ->]. reflexivity.
    - unfold one. set (self' := set_raise_on_empty self true).
      rewrite (chain_next_passes self' Hpass).
      rewrite document_array_head in Hraw.
      rewrite (parse_next_array_head self' _ _ Hraw).
      pose proof (loop_next_object array_tail end_of_document items self'
                    array_locals new_builder eq_refl eq_refl eq_refl) as H.
      rewrite Hobjs in H.
      destruct H as (b1 & items1 & Hb1 & Hobjs1 & ->).
      injection Hobjs1 as Hos.
      cbn [next_value chain_after]. rewrite chain_next_parsing.
      cbn [parse_next pc vars pending ending].
      pose proof (loop_next_object array_tail end_of_document items1
                    (set_count self' (count self' + 1))
                    (set_builder array_locals b1) b1 eq_refl eq_refl Hb1)
        as H.
      rewrite <- Hos in H.
      destruct os as [ | o2 os ].
      + destruct H as (b2 & _ & ->).
        rewrite loop_array_tail; [ reflexivity | reflexivity | ].
        unfold self', count, set_count, set_raise_on_empty in *.
        cbn [_count]. lia.
      + destruct H as (b2 & items2 & _ & _ & ->). reflexivity. }
  split; [ exact Hone | ].
  unfold one_or_none. destruct (one self) as [s r]. cbn [snd] in *.
  subst r. destruct (objects items) as [ | o [ | o2 os ] ]; reflexivity.
Qed.

Lemma one_counts_the_objects_witness :
  let body :=
    document (JObject [("result",
                        JArray [JNull; JObject [("n", JInteger 1)];
                                JArray []])]) in
  let self := __init__ (mkHTTPResponse 200 "GET" body) false 1024 in
  snd (one self) = Ok (PDict [("n", PInt 1)]).
Proof.
  intros body self.
  exact (proj1 (one_counts_the_objects
                  [JNull; JObject [("n", JInteger 1)]; JArray []] self
                  eq_refl eq_refl eq_refl)).
Defined.

(* ================================================================= *)
(** ** The gate: deleted records and HTTP errors *)

Lemma chain_next_deleted (self : Response) :
  request_method (_response self) = "DELETE" ->
  status_code (_response self) = 204 ->
  chain_next self (all self)
  = (self, Yield record_deleted,
     mkChain gate_deleted (Some (list_iterator []))).
Proof.
  intros Hm Hs. unfold chain_next, all.
  cbn [inner outer gate_left from_outer gate_next]. rewrite Hm, Hs.
  reflexivity.
Qed.

(** X7.  A DELETE answered with status 204 is never parsed: whatever
    the body, the flag and the count, [all()] yields the one record
    [{'status': 'record deleted'}] and ends, [count] stays as it was,
    and each of the four accessors returns that record. *)
Theorem deleted_record_without_parsing (self : Response) (fuel : nat) :
  request_method (_response self) = "DELETE" ->
  status_code (_response self) = 204 ->
  consume chain_next (S (S fuel)) self (all self)
  = ([(record_deleted, count self)], Exhausted, self)
  /\ (forall a, call a self
                = (set_raise_on_empty self true, Ok record_deleted)).
Proof.
  intros Hm Hs. split.
  - cbn [consume]. rewrite (chain_next_deleted self Hm Hs). reflexivity.
  - pose proof (chain_next_deleted (set_raise_on_empty self true) Hm Hs)
      as Hc.
    intros a.
    destruct a; cbn [call];
      unfold first_or_none, one_or_none, first, one; rewrite Hc; reflexivity.
Qed.

Lemma deleted_record_without_parsing_witness :
  let self :=
    __init__ (mkHTTPResponse 204 "DELETE" (mkStream [] malformed)) true 1024 in
  consume chain_next 2 self (all self)
  = ([(record_deleted, 0)], Exhausted, self)
  /\ one self = (self, Ok record_deleted).
Proof.
  intros self.
  destruct (deleted_record_without_parsing self 0 eq_refl eq_refl)
    as [Hall Hcall].
  split; [ exact Hall | exact (Hcall call_one) ].
Defined.

Lemma chain_next_http_error (self : Response) :
  400 <= status_code (_response self) < 600 ->
  status_code (_response self) <> 404 ->
  chain_next self (all self)
  = (self, Raise (HTTPError (status_code (_response self))), exhausted).
Proof.
  intros Hrange H404. unfold chain_next, all.
  cbn [inner outer gate_left from_outer gate_next].
  unfold raise_for_status.
  replace (status_code (_response self) =? 204) with false
    by (symmetry; apply Z.eqb_neq; lia).
  rewrite andb_false_r.
  replace (400 <=? status_code (_response self)) with true
    by (symmetry; apply Z.leb_le; lia).
  replace (status_code (_response self) <? 600) with true
    by (symmetry; apply Z.ltb_lt; lia).
  replace (status_code (_response self) =? 404) with false
    by (symmetry; apply Z.eqb_neq; lia).
  reflexivity.
Qed.

(** X8.  An error status other than 404 comes out as the [HTTPError] of
    [raise_for_status]: whatever the method, the body, the flag and the
    count, the iteration of [all()] and each of the four accessors fail
    with it, before anything of the body is read; the [or_none]
    accessors do not turn it into [None]. *)
Theorem http_error_propagates (self : Response) :
  400 <= status_code (_response self) < 600 ->
  status_code (_response self) <> 404 ->
  every_accessor_fails self (HTTPError (status_code (_response self))).
Proof.
  intros Hrange H404.
  pose proof (chain_next_http_error self Hrange H404) as Hself.
  pose proof (chain_next_http_error (set_raise_on_empty self true)
                                    Hrange H404) as Hforced.
  cbn [set_raise_on_empty _response] in Hforced.
  unfold every_accessor_fails, first_or_none, one_or_none, first, one.
  rewrite Hforced.
  split; [ | split; [ | split; [ | split ] ] ]; try reflexivity.
  intros fuel. cbn [consume]. rewrite Hself. eauto.
Qed.

Lemma http_error_propagates_witness :
  every_accessor_fails
    (__init__ (mkHTTPResponse 500 "GET"
                 (document (JObject [("result", JArray [])])))
              false 1024)
    (HTTPError 500).
Proof.
  apply (http_error_propagates
           (__init__ (mkHTTPResponse 500 "GET"
                        (document (JObject [("result", JArray [])])))
                     false 1024)); cbn; lia.
Defined.

(** With status 404 and raise-on-empty false, a body that holds an
    error object makes [all()] yield the empty record and then fail. *)
Lemma status_404_goes_on_to_parse_witness :
  let body :=
    document (JObject [("error", JObject [("message", JString "No Record")])])
  in
  let self := __init__ (mkHTTPResponse 404 "GET" body) false 1024 in
  consume chain_next 2 self (all self)
  = ([(PDict [], 0)],
     Failed (ResponseError (PDict [("message", PStr "No Record")])), self).
Proof.
  intros body self.
  rewrite (status_404_goes_on_to_parse self 0 eq_refl eq_refl).
  reflexivity.
Defined.

(* ================================================================= *)
(** ** The accessors on a single result object *)

(** X10.  For a document [{"result": {...}}], on a [Response] whose
    gate passes and whose [count] is not negative, each of [first],
    [first_or_none], [one] and [one_or_none] returns the value of that
    object and leaves [count] one higher. *)
Theorem accessors_return_the_result_object
        (members : list (string * json)) (self : Response) (a : accessor) :
  gate_passes (_response self) = true ->
  raw (_response self) = document (JObject [("result", JObject members)]) ->
  0 <= count self ->
  call a self
  = (set_count (set_raise_on_empty self true) (count self + 1),
     Ok (loads (JObject members))).
Proof.
  intros Hpass Hraw Hcount.
  set (self' := set_raise_on_empty self true).
  assert (Hc : chain_next self' (all self')
               = (set_count self' (count self' + 1),
                  Yield (loads (JObject members)),
                  mkChain gate_parse
                    (Some (generator_iterator
                       (mkFrame pc_loop
                          (mkLocals true false false
                             (Some (mkBuilder (Some (loads (JObject members)))
                                              [initial_set]
                                              (last_key (JObject members)
                                                        None))))
                          [("", end_map)] end_of_document))))).
  { rewrite (chain_next_passes self' Hpass).
    rewrite (parse_next_result_object self' members Hraw). reflexivity. }
  assert (Hfirst : first self
                   = (set_count self' (count self + 1),
                      Ok (loads (JObject members)))).
  { unfold first. fold self'. rewrite Hc. reflexivity. }
  assert (Hone : one self
                 = (set_count self' (count self + 1),
                    Ok (loads (JObject members)))).
  { unfold one. fold self'. rewrite Hc.
    cbn [next_value]. rewrite chain_next_parsing.
    cbn [parse_next pc vars pending ending].
    rewrite (loop_cons_next _ (set_count self' (count self' + 1))
                            _ (mkLocals true false false
                                 (Some (mkBuilder
                                          (Some (loads (JObject members)))
                                          [initial_set]
                                          (last_key (JObject members) None)))))
      by reflexivity.
    cbn [loop]. unfold after_loop, missing_check.
    cbn [has_result_single has_result_many has_error orb andb negb].
    replace (count (set_count self' (count self' + 1)) =? 0) with false.
    - reflexivity.
    - symmetry. apply Z.eqb_neq.
      unfold self', count, set_count, set_raise_on_empty in *.
      cbn [_count]. lia. }
  destruct a; cbn [call]; unfold first_or_none, one_or_none;
    rewrite ?Hfirst, ?Hone; reflexivity.
Qed.

Lemma accessors_return_the_result_object_witness :
  let body :=
    document (JObject [("result", JObject [("number", JString "INC01")])]) in
  let self := __init__ (mkHTTPResponse 200 "GET" body) false 1024 in
  one self
  = (set_count (set_raise_on_empty self true) 1,
     Ok (PDict [("number", PStr "INC01")])).
Proof.
  intros body self.
  apply (accessors_return_the_result_object
           [("number", JString "INC01")] self call_one);
    [ reflexivity | reflexivity | cbn; lia ].
Defined.

(* ================================================================= *)
(** ** No ResponseError once a result was matched *)

Lemma dict_update_errors (k : string) (f : pyval -> result pyval) :
  (forall v e, f v = Err e -> builder_error e = true) ->
  forall d e, dict_update k f d = Err e -> builder_error e = true.
Proof.
  intros Hf. induction d as [ | [k' v] t IH ]; intros e H; simpl in H.
  - injection H as <-. reflexivity.
  - destruct (String.eqb k k').
    + destruct (f v) eqn:E; simpl in H; [ discriminate | ].
      injection H as <-. apply (Hf _ _ E).
    + destruct (dict_update k f t) eqn:E; simpl in H; [ discriminate | ].
      injection H as <-. apply IH. reflexivity.
Qed.

Lemma last_update_errors (f : pyval -> result pyval) :
  (forall v e, f v = Err e -> builder_error e = true) ->
  forall l e, last_update f l = Err e -> builder_error e = true.
Proof.
  intros Hf. induction l as [ | x t IH ]; intros e H.
  - injection H as <-. reflexivity.
  - destruct t as [ | y t' ].
    + simpl in H. destruct (f x) eqn:E; simpl in H; [ discriminate | ].
      injection H as <-. apply (Hf _ _ E).
    + change (last_update f (x :: y :: t'))
        with (t1 <- last_update f (y :: t') ;; Ok (x :: t1)) in H.
      destruct (last_update f (y :: t')) eqn:E; simpl in H;
        [ discriminate | ].
      injection H as <-. apply IH. reflexivity.
Qed.

Lemma at_ref_errors (r : ref) :
  forall f,
    (forall v e, f v = Err e -> builder_error e = true) ->
    forall root e, at_ref r f root = Err e -> builder_error e = true.
Proof.
  induction r as [ | [k | ] r0 IH ]; intros f Hf root e H; simpl in H.
  - apply (Hf _ _ H).
  - destruct root; try (injection H as <-; reflexivity).
    destruct (dict_update k (at_ref r0 f) d) eqn:E; simpl in H;
      [ discriminate | ].
    injection H as <-.
    apply (dict_update_errors k (at_ref r0 f) (IH f Hf) _ _ E).
  - destruct root; try (injection H as <-; reflexivity).
    destruct (last_update (at_ref r0 f) l) eqn:E; simpl in H;
      [ discriminate | ].
    injection H as <-.
    apply (last_update_errors (at_ref r0 f) (IH f Hf) _ _ E).
Qed.

Lemma store_errors (s : setter) (k : option string) (root : option pyval)
      (x : pyval) (e : exn) :
  store s k root x = Err e -> builder_error e = true.
Proof.
  destruct s as [ | m | a ]; simpl; intros H.
  - discriminate.
  - destruct k; [ | injection H as <-; reflexivity ].
    destruct root; [ | injection H as <-; reflexivity ].
    apply (at_ref_errors m (setitem s x)) in H; [ exact H | ].
    intros [ | | | | | | d ] err Herr; simpl in Herr; try discriminate;
      injection Herr as <-; reflexivity.
  - destruct root; [ | injection H as <-; reflexivity ].
    apply (at_ref_errors a (append x)) in H; [ exact H | ].
    intros [ | | | | | l | ] err Herr; simpl in Herr; try discriminate;
      injection Herr as <-; reflexivity.
Qed.

(** The builder fails with built-in exceptions only. *)
Lemma builder_event_errors (b : ObjectBuilder) (ev : event) (e : exn) :
  builder_event b ev = Err e -> builder_error e = true.
Proof.
  assert (Hcall : forall s x e0,
             call_setter s b x = Err e0 -> builder_error e0 = true).
  { intros s x e0 H. unfold call_setter in H.
    destruct (store s (key b) (value b) x) eqn:E; simpl in H;
      [ discriminate | ].
    injection H as <-. apply (store_errors _ _ _ _ _ E). }
  assert (Hat : forall s e0,
             stored_at s (key b) = Err e0 -> builder_error e0 = true).
  { intros [ | m | a ] e0 H; simpl in H; try discriminate.
    destruct (key b); [ discriminate | ]. injection H as <-. reflexivity. }
  unfold builder_event, top. intros H.
  destruct ev; try discriminate;
    (destruct (containers b) as [ | st cs ]; cbn [bind] in H;
     [ injection H as <-; reflexivity | ]);
    try discriminate;
    try (apply (Hcall _ _ _ H));
    (destruct (call_setter st b _) eqn:E1; cbn [bind] in H;
     [ | injection H as <-; apply (Hcall _ _ _ E1) ]);
    (destruct (stored_at st (key b)) eqn:E2; cbn [bind] in H;
     [ discriminate | injection H as <-; apply (Hat _ _ E2) ]).
Qed.

Lemma feed_errors (l : locals) (ev : event) (e : exn) :
  feed l ev = Err e -> builder_error e = true.
Proof.
  unfold feed, the_builder. intros H.
  destruct (builder l) as [ b | ]; simpl in H;
    [ | injection H as <-; reflexivity ].
  destruct (builder_event b ev) eqn:E; simpl in H; [ discriminate | ].
  injection H as <-. apply (builder_event_errors _ _ _ E).
Qed.

Lemma feed_result_matched (l l' : locals) (ev : event) :
  feed l ev = Ok l' -> result_matched l' = result_matched l.
Proof.
  unfold feed, the_builder. intros H.
  destruct (builder l) as [ b | ]; simpl in H; [ | discriminate ].
  destruct (builder_event b ev); simpl in H; [ | discriminate ].
  injection H as <-. reflexivity.
Qed.

Lemma builder_value_errors (l : locals) (e : exn) :
  builder_value l = Err e -> builder_error e = true.
Proof.
  unfold builder_value, the_builder. intros H.
  destruct (builder l) as [ b | ]; simpl in H;
    [ | injection H as <-; reflexivity ].
  destruct (value b); [ discriminate | ].
  injection H as <-. reflexivity.
Qed.

Lemma classify_result_matched (l : locals) (pe : ParseEvent) :
  result_matched l = true -> result_matched (classify l pe) = true.
Proof.
  destruct pe as [prefix ev]. unfold classify, result_matched.
  intros H.
  repeat match goal with
         | |- context [ if ?c then _ else _ ] => destruct c
         end;
    cbn [has_result_many has_result_single]; auto using orb_true_r.
Qed.

Lemma finish_record_result_matched (self : Response) (l : locals)
      (ev : event) :
  result_matched l = true ->
  match snd (finish_record self l ev) with
  | Next l' => result_matched l' = true
  | Yielded l' _ => result_matched l' = true
  | Raised e => builder_error e = true
  end.
Proof.
  intros H. unfold finish_record.
  destruct (feed l ev) as [ l' | e ] eqn:E; cbn [snd].
  - destruct (builder_value l') eqn:Ev; cbn [snd].
    + rewrite (feed_result_matched _ _ _ E). exact H.
    + apply (builder_value_errors _ _ Ev).
  - apply (feed_errors _ _ _ E).
Qed.

Lemma build_result_matched (l : locals) (ev : event) :
  result_matched l = true ->
  match build l ev with
  | Next l' => result_matched l' = true
  | Yielded l' _ => result_matched l' = true
  | Raised e => builder_error e = true
  end.
Proof.
  intros H. unfold build.
  destruct (feed l ev) as [ l' | e ] eqn:E.
  - rewrite (feed_result_matched _ _ _ E). exact H.
  - apply (feed_errors _ _ _ E).
Qed.

(** With a result matched, a turn of the loop keeps it matched and
    raises nothing but what the builder raises. *)
Lemma dispatch_result_matched (self : Response) (l : locals)
      (pe : ParseEvent) :
  result_matched l = true ->
  match snd (dispatch self l pe) with
  | Next l' => result_matched l' = true
  | Yielded l' _ => result_matched l' = true
  | Raised e => builder_error e = true
  end.
Proof.
  destruct pe as [prefix ev]. intros H.
  pose proof (finish_record_result_matched self l ev H) as Hfinish.
  pose proof (build_result_matched l ev H) as Hbuild.
  unfold dispatch.
  destruct (has_result_many l) eqn:Hmany.
  - destruct (_ && _); [ exact Hfinish | ].
    destruct (startswith _ _); [ exact Hbuild | exact H ].
  - destruct (has_result_single l) eqn:Hsingle.
    + destruct (_ && _); [ exact Hfinish | ].
      destruct (startswith _ _); [ exact Hbuild | exact H ].
    + unfold result_matched in H. rewrite Hmany, Hsingle in H.
      discriminate H.
Qed.

Lemma builder_error_no_response_error (e : exn) :
  builder_error e = true -> no_response_error (Raise e).
Proof. intros H v Hv. injection Hv as ->. discriminate H. Qed.

(** Once a result has been matched, or is matched by the next event, the
    loop never raises [ResponseError], and the generator is left with
    the result matched. *)
Lemma loop_result_matched (fin : stream_end) :
  forall evs self l,
    match evs with
    | [] => result_matched l
    | pe :: _ => result_matched (classify l pe)
    end = true ->
    no_response_error (snd (fst (loop self l evs fin)))
    /\ result_matched (vars (snd (loop self l evs fin))) = true
    /\ pc (snd (loop self l evs fin)) <> pc_start.
Proof.
  induction evs as [ | pe evs IH ]; intros self l H; cbn [loop].
  - unfold after_loop, missing_check.
    destruct fin;
      repeat match goal with
             | |- context [ if ?c then _ else _ ] => destruct c
             end;
      cbn [fst snd vars pc finished];
      (split; [ intros v Hv; discriminate Hv | split; [ exact H | discriminate ] ]).
  - pose proof (dispatch_result_matched self (classify l pe) pe H) as Hd.
    destruct (dispatch self (classify l pe) pe) as [self1 [ l1 | l1 v | e ]];
      cbn [snd] in Hd.
    + apply IH. destruct evs as [ | pe' evs' ]; [ exact Hd | ].
      apply classify_result_matched, Hd.
    + cbn [fst snd vars pc].
      split; [ intros v0 Hv; discriminate Hv | split; [ exact Hd | discriminate ] ].
    + cbn [fst snd vars pc finished].
      split; [ apply builder_error_no_response_error, Hd
             | split; [ exact H | discriminate ] ].
Qed.

Lemma parse_next_result_matched (self : Response) (g : frame) :
  pc g <> pc_start ->
  result_matched (vars g) = true ->
  no_response_error (snd (fst (parse_next self g)))
  /\ result_matched (vars (snd (parse_next self g))) = true
  /\ pc (snd (parse_next self g)) <> pc_start.
Proof.
  intros Hpc Hm. unfold parse_next.
  destruct (pc g) eqn:E.
  - contradiction.
  - apply loop_result_matched.
    destruct (pending g) as [ | pe evs ];
      [ exact Hm | apply classify_result_matched, Hm ].
  - unfold missing_check.
    destruct (negb _); cbn [fst snd vars pc finished];
      (split; [ intros v Hv; discriminate Hv | split; [ exact Hm | discriminate ] ]).
  - cbn [fst snd]. rewrite E.
    split; [ intros v Hv; discriminate Hv | split; [ exact Hm | discriminate ] ].
Qed.

Lemma consume_result_matched :
  forall fuel self g,
    pc g <> pc_start ->
    result_matched (vars g) = true ->
    forall v, snd (fst (consume parse_next fuel self g))
              <> Failed (ResponseError v).
Proof.
  induction fuel as [ | fuel IH ]; intros self g Hpc Hm v; cbn [consume].
  - discriminate.
  - destruct (parse_next_result_matched self g Hpc Hm) as (Hno & Hm' & Hpc').
    destruct (parse_next self g) as [[self1 o] g1]. cbn [fst snd] in *.
    destruct o as [ x | | e ].
    + specialize (IH self1 g1 Hpc' Hm' v).
      destruct (consume parse_next fuel self1 g1) as [[tr e1] final].
      exact IH.
    + discriminate.
    + cbn [fst snd]. intros He. injection He as ->. apply (Hno v).
      reflexivity.
Qed.

Lemma consume_loop_result_matched (fin : stream_end)
      (evs : list ParseEvent) (self : Response) (g : frame) (l : locals) :
  parse_next self g = loop self l evs fin ->
  match evs with
  | [] => result_matched l
  | pe :: _ => result_matched (classify l pe)
  end = true ->
  forall fuel v,
    snd (fst (consume parse_next fuel self g)) <> Failed (ResponseError v).
Proof.
  intros Hnext Hm fuel v. destruct fuel as [ | fuel ]; cbn [consume].
  - discriminate.
  - rewrite Hnext.
    destruct (loop_result_matched fin evs self l Hm) as (Hno & Hm' & Hpc').
    destruct (loop self l evs fin) as [[self1 o] g1]. cbn [fst snd] in *.
    destruct o as [ x | | e ].
    + pose proof (consume_result_matched fuel self1 g1 Hpc' Hm' v) as H.
      destruct (consume parse_next fuel self1 g1) as [[tr e1] final].
      exact H.
    + discriminate.
    + cbn [fst snd]. intros He. injection He as ->. apply (Hno v).
      reflexivity.
Qed.

(** X9.  Once a [result] object or array has been matched, the pass
    never raises [ResponseError]: for every document whose root object
    holds a [result] object or array with no [error] object before it,
    whatever the members after it, an [error] object among them
    included, no iteration of [all()] ends with [ResponseError]. *)
Theorem no_response_error_after_a_result
        (before after : list (string * json)) (v : json)
        (self : Response) (fuel : nat) :
  existsb root_match before = false ->
  root_match ("result", v) = true ->
  gate_passes (_response self) = true ->
  raw (_response self)
  = document (JObject (before ++ ("result", v) :: after)) ->
  forall x,
    snd (fst (consume chain_next fuel self (all self)))
    <> Failed (ResponseError x).
Proof.
  intros Hbefore Hv Hpass Hraw x.
  rewrite consume_all_passes by exact Hpass.
  apply (consume_loop_result_matched end_of_document
           (events_at ["result"] v
              ++ member_events [] after ++ [("", end_map)])
           self _ initial_locals).
  - unfold parse_next, _parse_response. cbn [pc].
    rewrite Hraw. unfold document. cbn [stream_events stream_ending].
    rewrite events_root_object, member_events_app, member_events_cons.
    change (join_path []) with "". change ([] ++ ["result"]) with ["result"].
    rewrite (loop_cons_next self self initial_locals initial_locals)
      by reflexivity.
    rewrite <- app_assoc.
    rewrite loop_unmatched;
      [ | reflexivity | apply unmatched_members, Hbefore ].
    rewrite <- app_comm_cons.
    rewrite (loop_cons_next self self initial_locals initial_locals)
      by reflexivity.
    rewrite <- app_assoc. reflexivity.
  - destruct v; try discriminate Hv; reflexivity.
Qed.

Lemma no_response_error_after_a_result_witness :
  let body :=
    document
      (JObject ([("status", JString "failure")]
                  ++ ("result", JObject [("n", JInteger 1)])
                  :: [("error", JObject [("message", JString "m")])])) in
  let self := __init__ (mkHTTPResponse 200 "GET" body) false 1024 in
  consume chain_next 3 self (all self)
  = ([(PDict [("n", PInt 1)], 1)], Exhausted, set_count self 1)
  /\ forall x,
       snd (fst (consume chain_next 3 self (all self)))
       <> Failed (ResponseError x).
Proof.
  intros body self. split.
  - reflexivity.
  - apply (no_response_error_after_a_result
             [("status", JString "failure")]
             [("error", JObject [("message", JString "m")])]
             (JObject [("n", JInteger 1)]) self 3);
      reflexivity.
Defined.

(* ================================================================= *)
(** ** What the generators and the accessors leave alone *)

Lemma dispatch_raises_count (self : Response) (l : locals) (pe : ParseEvent) :
  exists c, count self <= c /\ fst (dispatch self l pe) = set_count self c.
Proof.
  assert (Hsame : exists c, count self <= c /\ self = set_count self c).
  { exists (count self). split; [ lia | ].
    symmetry. apply set_count_same. reflexivity. }
  assert (Hup : exists c, count self <= c
                          /\ set_count self (count self + 1) = set_count self c).
  { exists (count self + 1). split; [ lia | reflexivity ]. }
  destruct pe as [prefix ev]. unfold dispatch, finish_record, build.
  repeat match goal with
         | |- context [ if ?c then _ else _ ] => destruct c
         | |- context [ match ?c with Ok _ => _ | Err _ => _ end ] =>
             destruct c
         end;
    cbn [fst]; assumption.
Qed.

Lemma loop_raises_count (fin : stream_end) :
  forall evs self l,
  exists c, count self <= c
            /\ fst (fst (loop self l evs fin)) = set_count self c.
Proof.
  induction evs as [ | pe evs IH ]; intros self l; cbn [loop].
  - exists (count self). split; [ lia | ].
    rewrite set_count_same by reflexivity.
    unfold after_loop, missing_check.
    repeat match goal with
           | |- context [ if ?c then _ else _ ] => destruct c
           | |- context [ match ?c with end_of_document => _ | malformed => _ end ] =>
               destruct c
           end; reflexivity.
  - destruct (dispatch_raises_count self (classify l pe) pe) as (c & Hle & Hc).
    destruct (dispatch self (classify l pe) pe) as [self1 [ l1 | l1 v | e ]];
      cbn [fst] in Hc; subst self1.
    + destruct (IH (set_count self c) l1) as (c' & Hle' & Hc').
      exists c'. rewrite Hc'. split; [ | reflexivity ].
      unfold count, set_count in *. cbn [_count] in *. lia.
    + exists c. auto.
    + exists c. auto.
Qed.

Lemma parse_next_raises_count (self : Response) (g : frame) :
  exists c, count self <= c
            /\ fst (fst (parse_next self g)) = set_count self c.
Proof.
  assert (Hsame : exists c, count self <= c /\ self = set_count self c).
  { exists (count self). split; [ lia | ].
    symmetry. apply set_count_same. reflexivity. }
  unfold parse_next. destruct (pc g).
  - apply loop_raises_count.
  - apply loop_raises_count.
  - unfold missing_check. destruct (negb _); exact Hsame.
  - exact Hsame.
Qed.

Lemma iterator_next_raises_count (self : Response) (it : iterator) :
  exists c, count self <= c
            /\ fst (fst (iterator_next self it)) = set_count self c.
Proof.
  assert (Hsame : exists c, count self <= c /\ self = set_count self c).
  { exists (count self). split; [ lia | ].
    symmetry. apply set_count_same. reflexivity. }
  destruct it as [ [ | x rest ] | g ]; cbn [iterator_next]; try exact Hsame.
  destruct (parse_next_raises_count self g) as (c & Hle & Hc).
  destruct (parse_next self g) as [[self' o] g']. exists c. auto.
Qed.

Lemma from_outer_raises_count :
  forall n self g,
  exists c, count self <= c
            /\ fst (fst (from_outer n self g)) = set_count self c.
Proof.
  induction n as [ | n IH ]; intros self g;
    (assert (Hsame : exists c, count self <= c /\ self = set_count self c)
       by (exists (count self); split; [ lia | ];
           symmetry; apply set_count_same; reflexivity));
    cbn [from_outer];
    destruct (gate_next self g) as [[ it | | e ] g']; try exact Hsame;
    destruct (iterator_next_raises_count self (iter it)) as (c & Hle & Hc);
    destruct (iterator_next self (iter it)) as [[self' [ v | | e ]] it'];
    cbn [fst] in Hc; subst self'; try (exists c; auto; fail).
  destruct (IH (set_count self c) g') as (c' & Hle' & Hc').
  exists c'. rewrite Hc'. split; [ | reflexivity ].
  unfold count, set_count in *. cbn [_count] in *. lia.
Qed.

(** A step of an [all()] iterator writes nothing but [count], and never
    lowers it. *)
Lemma chain_next_raises_count (self : Response) (c : chain) :
  exists n, count self <= n
            /\ fst (fst (chain_next self c)) = set_count self n.
Proof.
  unfold chain_next. destruct (inner c) as [ it | ].
  - destruct (iterator_next_raises_count self it) as (n & Hle & Hn).
    destruct (iterator_next self it) as [[self' [ v | | e ]] it'];
      cbn [fst] in Hn; subst self'; try (exists n; auto; fail).
    destruct (from_outer_raises_count (gate_left (outer c))
                                      (set_count self n) (outer c))
      as (n' & Hle' & Hn').
    exists n'. rewrite Hn'. split; [ | reflexivity ].
    unfold count, set_count in *. cbn [_count] in *. lia.
  - apply from_outer_raises_count.
Qed.

(** X11.  Whatever the response, a step of an [all()] iterator changes
    no attribute of the object but [count], and each of the four
    accessors changes nothing but [count] and the raise-on-empty flag,
    which it sets; [count] is never lowered. *)
Theorem only_count_and_flag_are_written
        (self : Response) (c : chain) (a : accessor) :
  (exists n, count self <= n
             /\ fst (fst (chain_next self c)) = set_count self n)
  /\ (exists n, count self <= n
                /\ fst (call a self)
                   = set_count (set_raise_on_empty self true) n).
Proof.
  split; [ apply chain_next_raises_count | ].
  set (self' := set_raise_on_empty self true).
  assert (Hfirst : exists n, count self <= n
                             /\ fst (first self) = set_count self' n).
  { unfold first. fold self'.
    destruct (chain_next_raises_count self' (all self')) as (n & Hle & Hn).
    destruct (chain_next self' (all self')) as [[s o] c']. exists n. auto. }
  assert (Hone : exists n, count self <= n
                           /\ fst (one self) = set_count self' n).
  { unfold one. fold self'.
    destruct (chain_next_raises_count self' (all self')) as (n & Hle & Hn).
    destruct (chain_next self' (all self')) as [[s1 o1] c1].
    cbn [fst] in Hn. subst s1.
    destruct (next_value o1) as [ v | e ]; [ | exists n; auto ].
    destruct (chain_next_raises_count (set_count self' n) c1)
      as (n' & Hle' & Hn').
    destruct (chain_next (set_count self' n) c1) as [[s2 o2] c2].
    cbn [fst] in Hn'. subst s2.
    exists n'. split.
    - unfold self', count, set_count, set_raise_on_empty in *.
      cbn [_count] in *. lia.
    - destruct (next_value o2) as [ v' | e ]; [ reflexivity | ].
      destruct e; reflexivity. }
  destruct a; cbn [call]; unfold first_or_none, one_or_none;
    rewrite ?or_none_state; assumption.
Qed.

(* ================================================================= *)
(** ** The token of an OAuthClient *)

Lemma set_token_valid (self : OAuthClient) (tok : pyval) :
  valid_token (token self) ->
  valid_token (token (fst (set_token self tok)))
  /\ client_id (fst (set_token self tok)) = client_id self
  /\ client_secret (fst (set_token self tok)) = client_secret self
  /\ token_url (fst (set_token self tok)) = token_url self.
Proof.
  intros Hvalid. unfold set_token.
  destruct (truthy tok) eqn:Ht; cbn [negb].
  - destruct (isinstance_dict tok) eqn:Hd; cbn [negb orb].
    + destruct (subset expected_keys (key_set tok)) eqn:Hs; cbn [negb fst].
      * repeat split. right. repeat split; auto.
        apply subset_spec, Hs.
      * auto.
    + auto.
  - cbn [fst]. repeat split. left. reflexivity.
Qed.

(** X12.  Whatever is passed to [set_token], and however often, the
    stored token of a client that started without one is [None] or a
    non-empty dict holding the six expected keys, and the client id, the
    client secret and the token url are never touched. *)
Theorem stored_token_is_always_valid
        (toks : list pyval) (self : OAuthClient) :
  valid_token (token self) ->
  let self' := fold_left (fun s t => fst (set_token s t)) toks self in
  valid_token (token self')
  /\ client_id self' = client_id self
  /\ client_secret self' = client_secret self
  /\ token_url self' = token_url self.
Proof.
  revert self. induction toks as [ | tok toks IH ]; intros self Hvalid.
  - cbn. auto.
  - cbn [fold_left].
    destruct (set_token_valid self tok Hvalid) as (Hv & Hid & Hsec & Hurl).
    destruct (IH _ Hv) as (Hv' & Hid' & Hsec' & Hurl').
    cbv zeta in *. rewrite Hid', Hsec', Hurl', Hid, Hsec, Hurl. auto.
Qed.

Lemma stored_token_is_always_valid_witness :
  let client := mkOAuthClient PNone "id" "secret" "https://x/oauth_token.do" in
  let tok :=
    PDict [("token_type", PStr "Bearer"); ("refresh_token", PStr "r");
           ("access_token", PStr "a"); ("scope", PStr "useraccount");
           ("expires_in", PInt 1800); ("expires_at", PInt 1700000000)] in
  let self' :=
    fold_left (fun s t => fst (set_token s t))
              [PStr "junk"; tok; PDict [("scope", PNone)]; PInt 7] client in
  valid_token (token self') /\ token self' = tok.
Proof.
  intros client tok self'. split; [ | reflexivity ].
  apply (stored_token_is_always_valid
           [PStr "junk"; tok; PDict [("scope", PNone)]; PInt 7] client).
  left. reflexivity.
Defined.

Lemma instance_set_token_fst {U : Type} (self : OAuthClientInstance U)
      (tok : pyval) :
  fst (instance_set_token self tok)
  = mkInstance (fst (set_token (oauth self) tok)) (token_updater self)
               (client_session self).
Proof.
  unfold instance_set_token. destruct (set_token (oauth self) tok).
  reflexivity.
Qed.

Lemma instance_set_token_snd {U : Type} (self : OAuthClientInstance U)
      (tok : pyval) :
  snd (instance_set_token self tok) = snd (set_token (oauth self) tok).
Proof.
  unfold instance_set_token. destruct (set_token (oauth self) tok).
  reflexivity.
Qed.

(** X13.  [set_token] governs [resource] and [_legacy_request].  After
    [set_token] with a falsy argument both raise [MissingToken] and the
    method of the parent class is not called.  After a [set_token] that
    accepted a token, both replace the session by one built from that
    token, the client id, the token updater, the token url and the
    client id and secret as refresh arguments, and hand over to the
    method of the parent class, which sees the new session.  After a
    [set_token] that raised, both do what they did before it. *)
Theorem set_token_governs_the_gates
        {U A R R' : Type}
        (Client_resource : OAuthClientInstance U -> pyval * pyval -> result R)
        (Client_legacy_request : OAuthClientInstance U -> A -> result R')
        (self : OAuthClientInstance U) (tok api_path base_path : pyval)
        (args : A) :
  let self' := fst (instance_set_token self tok) in
  (truthy tok = false ->
   resource Client_resource self' api_path base_path
   = (self', Failing missing_token_resource)
   /\ _legacy_request Client_legacy_request self' args
      = (self', Failing missing_token_legacy))
  /\ (truthy tok = true ->
      snd (instance_set_token self tok) = Ok tt ->
      let s :=
        token_session (client_id (oauth self)) tok (token_updater self)
                      (token_url (oauth self))
                      [("client_id", client_id (oauth self));
                       ("client_secret", client_secret (oauth self))] in
      resource Client_resource self' api_path base_path
      = (with_session self' s,
         handed_over (Client_resource (with_session self' s)
                                      (api_path, base_path)))
      /\ _legacy_request Client_legacy_request self' args
         = (with_session self' s,
            handed_over (Client_legacy_request (with_session self' s) args)))
  /\ (forall e,
        snd (instance_set_token self tok) = Err e ->
        self' = self).
Proof.
  intros self'. unfold self'.
  rewrite instance_set_token_fst, instance_set_token_snd.
  unfold resource, _legacy_request, with_token_session, set_token.
  split; [ | split ].
  - intros ->. cbn [negb fst oauth token with_token isinstance_dict].
    split; reflexivity.
  - intros ->. cbn [negb].
    destruct (negb (isinstance_dict tok)
              || negb (subset expected_keys (key_set tok))) eqn:E;
      cbn [fst snd]; [ discriminate | intros _ ].
    apply orb_false_iff in E. destruct E as [Hd _].
    apply negb_false_iff in Hd.
    cbn [oauth token with_token]. rewrite Hd.
    unfold _get_oauth_session, with_session, handed_over.
    cbn [oauth token token_updater client_id client_secret token_url
         with_token].
    split.
    + destruct (Client_resource _ _); reflexivity.
    + destruct (Client_legacy_request _ _); reflexivity.
  - intros e.
    destruct (negb (truthy tok)); cbn [snd]; [ discriminate | ].
    destruct (negb (isinstance_dict tok)
              || negb (subset expected_keys (key_set tok)));
      cbn [fst snd]; [ | discriminate ].
    intros _. destruct self. reflexivity.
Qed.

Lemma set_token_governs_the_gates_witness :
  let client := mkOAuthClient PNone "id" "secret" "https://x/oauth_token.do" in
  let self := mkInstance client tt (legacy_session "id") in
  let tok :=
    PDict [("token_type", PStr "Bearer"); ("refresh_token", PStr "r");
           ("access_token", PStr "a"); ("scope", PStr "useraccount");
           ("expires_in", PInt 1800); ("expires_at", PInt 1700000000)] in
  let parent (o : OAuthClientInstance unit) (p : pyval * pyval) :=
    Ok (client_session o, p) in
  let self' := fst (instance_set_token self tok) in
  let s :=
    token_session "id" tok tt "https://x/oauth_token.do"
                  [("client_id", "id"); ("client_secret", "secret")] in
  resource parent self (PStr "/table/incident") (PStr "/api/now")
  = (self, Failing missing_token_resource)
  /\ resource parent self' (PStr "/table/incident") (PStr "/api/now")
     = (with_session self' s,
        Done (s, (PStr "/table/incident", PStr "/api/now"))).
Proof.
  intros client self tok parent self' s. split; [ reflexivity | ].
  destruct (set_token_governs_the_gates
              parent (fun _ (_ : unit) => Ok tt) self tok
              (PStr "/table/incident") (PStr "/api/now") tt)
    as (_ & Haccepted & _).
  exact (proj1 (Haccepted eq_refl eq_refl)).
Defined.

(* ================================================================= *)
(** ** The constructor of OAuthClient *)

Lemma kwargs_get_set_same {U : Type} (k : string) (a : kwarg U) :
  forall kw, kwargs_get k (kwargs_set k a kw) = Some a.
Proof.
  induction kw as [ | [k' a'] t IH ]; simpl.
  - rewrite String.eqb_refl. reflexivity.
  - destruct (String.eqb k k') eqn:E; simpl; rewrite E; auto.
Qed.

Lemma kwargs_get_set_other {U : Type} (k k0 : string) (a : kwarg U) :
  k <> k0 ->
  forall kw, kwargs_get k (kwargs_set k0 a kw) = kwargs_get k kw.
Proof.
  intros Hk. induction kw as [ | [k' a'] t IH ]; simpl.
  - apply String.eqb_neq in Hk. rewrite Hk. reflexivity.
  - destruct (String.eqb k0 k') eqn:E0; simpl.
    + apply String.eqb_eq in E0. subst k'.
      apply String.eqb_neq in Hk. rewrite Hk. reflexivity.
    + destruct (String.eqb k k'); auto.
Qed.

(** X14.  The constructor.  Without a non-empty client id and client
    secret it raises [InvalidUsage] before anything else: no warning,
    and the constructor of the parent class is not called.  Otherwise
    the parent class is constructed with the session of the OAuth client
    under [session] and [None] under [user] and [password], whatever the
    caller passed there, and with every other keyword argument as the
    caller passed it; the warning is given exactly when the caller
    passed a truthy [session] or [user] (a [password] alone is dropped
    silently); and the object that comes out has no token, so that
    [resource] raises [MissingToken] on it. *)
Theorem constructor_overrides_the_credentials
        {U R : Type}
        (Client_init : kwargs U -> result (string * session U))
        (Client_resource : OAuthClientInstance U -> pyval * pyval -> result R)
        (id secret : option string) (updater : U) (kw : kwargs U) :
  let c := OAuthClient_init Client_init id secret updater kw in
  (given secret && given id = false ->
   c = mkConstruction false None (Err invalid_client))
  /\ (given secret && given id = true ->
      exists i kw',
        id = Some i
        /\ parent_kwargs c = Some kw'
        /\ kwargs_get "session" kw' = Some (kw_session (legacy_session i))
        /\ kwargs_get "user" kw' = Some (kw_value PNone)
        /\ kwargs_get "password" kw' = Some (kw_value PNone)
        /\ (forall k, k <> "session" -> k <> "user" -> k <> "password" ->
                      kwargs_get k kw' = kwargs_get k kw)
        /\ warned c
           = (kwargs_get_truthy "session" kw || kwargs_get_truthy "user" kw)
        /\ constructed c
           = match Client_init kw' with
             | Ok (base_url, s) =>
                 Ok (mkInstance
                       (mkOAuthClient PNone i
                          (match secret with Some x => x | None => "" end)
                          (base_url ++ "/oauth_token.do")%string)
                       updater s)
             | Err e => Err e
             end
        /\ forall self api_path base_path,
             constructed c = Ok self ->
             resource Client_resource self api_path base_path
             = (self, Failing missing_token_resource)).
Proof.
  intros c. unfold c, OAuthClient_init. split.
  - intros H. destruct secret as [ s | ]; [ | reflexivity ].
    destruct id as [ i | ]; [ | reflexivity ].
    rewrite H. reflexivity.
  - intros H. destruct secret as [ s | ]; [ | discriminate H ].
    destruct id as [ i | ];
      [ | cbn in H; rewrite andb_false_r in H; discriminate H ].
    rewrite H. cbn [negb].
    set (kw' := kwargs_set "password" (kw_value PNone)
                  (kwargs_set "user" (kw_value PNone)
                     (kwargs_set "session" (kw_session (legacy_session i))
                                 kw))).
    exists i, kw'.
    assert (Hkw : parent_kwargs
                    match Client_init kw' with
                    | Ok (base_url, s0) =>
                        mkConstruction
                          (kwargs_get_truthy "session" kw
                           || kwargs_get_truthy "user" kw)
                          (Some kw')
                          (Ok (mkInstance
                                 (mkOAuthClient PNone i s
                                    (base_url ++ "/oauth_token.do")%string)
                                 updater s0))
                    | Err e =>
                        mkConstruction
                          (kwargs_get_truthy "session" kw
                           || kwargs_get_truthy "user" kw)
                          (Some kw') (Err e)
                    end = Some kw')
      by (destruct (Client_init kw') as [ [base s0] | e ]; reflexivity).
    split; [ reflexivity | ]. split; [ exact Hkw | ].
    split; [ | split; [ | split; [ | split; [ | split; [ | split ] ] ] ] ].
    + unfold kw'.
      rewrite kwargs_get_set_other by discriminate.
      rewrite kwargs_get_set_other by discriminate.
      apply kwargs_get_set_same.
    + unfold kw'. rewrite kwargs_get_set_other by discriminate.
      apply kwargs_get_set_same.
    + unfold kw'. apply kwargs_get_set_same.
    + intros k Hs Hu Hp. unfold kw'.
      rewrite !kwargs_get_set_other by assumption. reflexivity.
    + destruct (Client_init kw') as [ [base s0] | e ]; reflexivity.
    + destruct (Client_init kw') as [ [base s0] | e ]; reflexivity.
    + intros self api_path base_path.
      destruct (Client_init kw') as [ [base s0] | e ]; cbn [constructed];
        [ | discriminate ].
      intros Hself. injection Hself as <-. reflexivity.
Qed.

Lemma constructor_overrides_the_credentials_witness :
  let parent (kw : kwargs unit) :=
    Ok ("https://dev.service-now.com", legacy_session "id") in
  let c :=
    OAuthClient_init parent (Some "id") (Some "secret") tt
                     [("instance", kw_value (PStr "dev"));
                      ("password", kw_value (PStr "hunter2"))] in
  warned c = false
  /\ parent_kwargs c
     = Some [("instance", kw_value (PStr "dev"));
             ("password", kw_value PNone);
             ("session", kw_session (legacy_session "id"));
             ("user", kw_value PNone)]
  /\ exists i kw',
       parent_kwargs c = Some kw'
       /\ kwargs_get "password" kw' = Some (kw_value PNone)
       /\ i = "id".
Proof.
  intros parent c. split; [ reflexivity | ]. split; [ reflexivity | ].
  destruct (constructor_overrides_the_credentials
              parent (fun _ (_ : pyval * pyval) => Ok tt)
              (Some "id") (Some "secret") tt
              [("instance", kw_value (PStr "dev"));
               ("password", kw_value (PStr "hunter2"))])
    as (_ & Hok).
  destruct (Hok eq_refl) as (i & kw' & Hi & Hkw & _ & _ & Hpw & _).
  exists i, kw'. split; [ exact Hkw | ]. split; [ exact Hpw | ].
  injection Hi as <-. reflexivity.
Defined.
